(** * Pickleball open-play scheduler: the rotation state machine of [app.py]

    The Streamlit script keeps one dictionary [data] (players, queue, courts,
    streaks, history) that is loaded from [pickleball_data.json] at the start
    of every script run and written back by [save_json] at the end of every
    mutating operation.  The development below embeds the five operations of
    the script as functions on that dictionary and proves properties of
    single calls and of every state that a sequence of calls can reach. *)

From stdpp Require Import gmap strings list fin_maps.

Open Scope string_scope.
Open Scope Z_scope.
Open Scope list_scope.

(** ** Data, as the script has it *)

(** A player is a name, the string typed into the "Add player name" box;
    the script has no other identity for a player. *)

(** One entry of [data["history"]]. *)
Record Match := mkMatch {
  court   : Z;
  winners : list string;
  losers  : list string;
}.

(** The dictionary [data]. *)
Record Data := mkData {
  players : list string;
  queue   : list string;
  courts  : list (list string);
  streaks : gmap string Z;
  history : list Match;
}.

(** The dictionary [config]. *)
Record Config := mkConfig {
  max_players : nat;
  num_courts  : nat;
}.

Definition DEFAULT_MAX_PLAYERS : nat := 20.
Definition DEFAULT_NUM_COURTS : nat := 3.

Definition default_config : Config :=
  {| max_players := DEFAULT_MAX_PLAYERS; num_courts := DEFAULT_NUM_COURTS |}.

(** The default that [load_json] returns when no data file exists. *)
Definition default_data (cfg : Config) : Data :=
  {| players := [];
     queue   := [];
     courts  := replicate (num_courts cfg) [];
     streaks := ∅;
     history := [] |}.

(** ** How a call ends *)

Inductive exn := IndexError | KeyError.

(** [Done d]: the call reached [save_json(DATA_FILE, data)] and [rerun_app()]
    with the dictionary [d].  [Warned msg d]: the call showed [st.warning(msg)]
    and returned with the dictionary [d] in memory, nothing was written.
    [Ignored d]: the call fell through without doing anything.  [Raised e]:
    an uncaught exception stopped the script run before [save_json]. *)
Inductive outcome :=
  | Done (d : Data)
  | Warned (msg : string) (d : Data)
  | Ignored (d : Data)
  | Raised (e : exn).

(** The dictionary that the next script run loads: the file is rewritten only
    by a call that reaches [save_json]. *)
Definition commit (d : Data) (o : outcome) : Data :=
  match o with
  | Done d' => d'
  | Warned _ _ | Ignored _ | Raised _ => d
  end.

(** ** List primitives of the script *)

(** [l.pop(0)]; [None] stands for the [IndexError] of an empty list. *)
Definition pop0 {A} (l : list A) : option (A * list A) :=
  match l with
  | [] => None
  | x :: l' => Some (x, l')
  end.

(** [[l.pop(0) for _ in range(n)]], with the list that is left. *)
Fixpoint pop_many {A} (n : nat) (l : list A) : option (list A * list A) :=
  match n with
  | O => Some ([], l)
  | S n' =>
      match pop0 l with
      | None => None
      | Some (x, l') =>
          match pop_many n' l' with
          | None => None
          | Some (xs, l'') => Some (x :: xs, l'')
          end
      end
  end.

(** ** The "Add Player" button of the sidebar (lines 133-141) *)

Definition add_player (cfg : Config) (new_player : string) (d : Data) : outcome :=
  if decide (max_players cfg ≤ length (players d))%nat then
    Warned "Maximum player limit reached." d
  else if decide (new_player ≠ "" ∧ new_player ∉ players d) then
    Done {| players := players d ++ [new_player];
            queue   := queue d ++ [new_player];
            courts  := courts d;
            streaks := streaks d;
            history := history d |}
  else Ignored d.

(** ** initialize_queue (lines 40-47)

    [random.shuffle] is an oracle: [shuffled] is the order it leaves the copy
    of the roster in.  The callers below only pass permutations of the
    roster. *)
Definition initialize_queue (shuffled : list string) (d : Data) : outcome :=
  match players d with
  | [] => Warned "Add players first." d
  | _ :: _ =>
      Done {| players := players d;
              queue   := shuffled;
              courts  := courts d;
              streaks := streaks d;
              history := history d |}
  end.

(** ** assign_all_courts (lines 49-57) *)

(** [for p in data["courts"][i]: data["streaks"][p] = 1] *)
Definition set_streaks (v : Z) (ps : list string) (st : gmap string Z) : gmap string Z :=
  foldl (λ m p, <[p := v]> m) st ps.

(** The loop [for i in range(num_courts)], started at index [i] with [n]
    iterations left. *)
Fixpoint assign_from (i n : nat) (d : Data) : outcome :=
  match n with
  | O => Done d
  | S n' =>
      if decide (length (queue d) < 4)%nat then Done d
      else
        match pop_many 4 (queue d) with
        | None => Raised IndexError
        | Some (four, rest) =>
            if decide (i < length (courts d))%nat then
              assign_from (S i) n'
                {| players := players d;
                   queue   := rest;
                   courts  := <[i := four]> (courts d);
                   streaks := set_streaks 1 four (streaks d);
                   history := history d |}
            else Raised IndexError
        end
  end.

Definition assign_all_courts (cfg : Config) (d : Data) : outcome :=
  assign_from 0 (num_courts cfg) d.

(** ** process_court_result (lines 59-102) *)

Definition team1 (winning_team : string) : bool :=
  bool_decide (winning_team = "Team 1").

Definition winners_of (winning_team : string) (crt : list string) : list string :=
  if team1 winning_team then take 2 crt else drop 2 crt.

Definition losers_of (winning_team : string) (crt : list string) : list string :=
  if team1 winning_team then drop 2 crt else take 2 crt.

(** [for w in winners: data["streaks"][w] = data["streaks"].get(w, 0) + 1] *)
Definition bump_streaks (ws : list string) (st : gmap string Z) : gmap string Z :=
  foldl (λ m w, <[w := default 0 (m !! w) + 1]> m) st ws.

(** The two streak loops of lines 69-72. *)
Definition update_streaks (ws ls : list string) (st : gmap string Z) : gmap string Z :=
  set_streaks 0 ls (bump_streaks ws st).

(** The stay-or-rotate loop of lines 75-81, over the winners that are left;
    it carries [staying], the streaks and the queue.  [None] stands for the
    [KeyError] of reading [data["streaks"][w]] for an unknown [w]. *)
Fixpoint stay_or_rotate (ws : list string) (staying : list string)
    (st : gmap string Z) (q : list string)
    : option (list string * gmap string Z * list string) :=
  match ws with
  | [] => Some (staying, st, q)
  | w :: ws' =>
      match st !! w with
      | None => None
      | Some v =>
          if decide (v < 3) then stay_or_rotate ws' (staying ++ [w]) st q
          else stay_or_rotate ws' staying (<[w := 0]> st) (q ++ [w])
      end
  end.

(** Lines 83-90: the new content of the court and the queue that is left. *)
Definition reseed (staying q : list string) : option (list string * list string) :=
  match staying with
  | [s0; s1] =>
      if decide (3 ≤ length q)%nat then
        match pop0 q with
        | None => None
        | Some (a, q') =>
            match pop0 q' with
            | None => None
            | Some (b, q'') => Some ([s0] ++ [a; b; s1], q'')
            end
        end
      else Some ([s0] ++ staying, q)
  | _ => Some ([], q)
  end.

Definition process_court_result (court_index : nat) (winning_team : string)
    (d : Data) : outcome :=
  match courts d !! court_index with
  | None => Raised IndexError
  | Some crt =>
      if decide (length crt < 4)%nat then
        Warned "Not enough players on this court." d
      else
        let ws := winners_of winning_team crt in
        let ls := losers_of winning_team crt in
        match stay_or_rotate ws [] (update_streaks ws ls (streaks d)) (queue d) with
        | None => Raised KeyError
        | Some (staying, st, q) =>
            match reseed staying q with
            | None => Raised IndexError
            | Some (new_court, q') =>
                Done {| players := players d;
                        queue   := q' ++ ls;
                        courts  := <[court_index := new_court]> (courts d);
                        streaks := st;
                        history := history d ++
                          [ {| court := Z.of_nat court_index + 1;
                               winners := ws;
                               losers := ls |} ] |}
            end
        end
  end.

(** ** reset_all_data (lines 104-108): the data file is removed and the
    script reruns, so the next run loads the default *)
Definition reset_all_data (cfg : Config) (d : Data) : outcome :=
  Done (default_data cfg).

(** ** Sequences of operations *)

Inductive Op :=
  | AddPlayer (new_player : string)
  | InitializeQueue (shuffled : list string)
  | AssignAllCourts
  | SubmitResult (court_index : nat) (winning_team : string)
  | ResetEverything.

Definition exec (cfg : Config) (op : Op) (d : Data) : outcome :=
  match op with
  | AddPlayer name => add_player cfg name d
  | InitializeQueue shuffled => initialize_queue shuffled d
  | AssignAllCourts => assign_all_courts cfg d
  | SubmitResult i team => process_court_result i team d
  | ResetEverything => reset_all_data cfg d
  end.

(** One button press: run the operation, keep what was saved. *)
Definition press (cfg : Config) (d : Data) (op : Op) : Data :=
  commit d (exec cfg op d).

Definition run (cfg : Config) (ops : list Op) (d : Data) : Data :=
  foldl (press cfg) d ops.

(** [random.shuffle] leaves a permutation of the roster. *)
Definition shuffle_ok (d : Data) (op : Op) : Prop :=
  match op with
  | InitializeQueue shuffled => shuffled ≡ₚ players d
  | _ => True
  end.

(** The stricter discipline under which the queue is only reshuffled while
    nobody is on a court. *)
Definition shuffle_idle (d : Data) (op : Op) : Prop :=
  match op with
  | InitializeQueue shuffled => shuffled ≡ₚ players d ∧ Forall (λ c, c = []) (courts d)
  | _ => True
  end.

(** States reached from the default data by operations that each satisfy
    [ok] in the state they are applied to. *)
Inductive reach (ok : Data → Op → Prop) (cfg : Config) : Data → Prop :=
  | reach_default : reach ok cfg (default_data cfg)
  | reach_press d op : reach ok cfg d → ok d op → reach ok cfg (press cfg d op).

Definition reachable := reach shuffle_ok.
Definition reachable_idle := reach shuffle_idle.

(** Everybody who stands on some court. *)
Definition on_court (d : Data) : list string := concat (courts d).

(** ** Invariants and auxiliary notions used in the statements below *)

(** A sequence of button presses, each acceptable where it is made. *)
Fixpoint ops_ok (ok : Data → Op → Prop) (cfg : Config) (d : Data)
    (ops : list Op) : Prop :=
  match ops with
  | [] => True
  | op :: ops' => ok d op ∧ ops_ok ok cfg (press cfg d op) ops'
  end.

(** One iteration of the loop of [assign_all_courts] that assigns court [i]. *)
Definition assign_one (i : nat) (d : Data) : Data :=
  {| players := players d;
     queue   := drop 4 (queue d);
     courts  := <[i := take 4 (queue d)]> (courts d);
     streaks := set_streaks 1 (take 4 (queue d)) (streaks d);
     history := history d |}.

(** What holds in every reachable state:

    The board has one slot per configured court, no court lists more than
    four names, everybody in the queue or on a court is on the roster, and
    every recorded streak is 0, 1 or 2. *)
Record sound (cfg : Config) (d : Data) : Prop := mkSound {
  sound_board   : length (courts d) = num_courts cfg;
  sound_size    : ∀ j c, courts d !! j = Some c → (length c ≤ 4)%nat;
  sound_queue   : ∀ p, p ∈ queue d → p ∈ players d;
  sound_courts  : ∀ j c p, courts d !! j = Some c → p ∈ c → p ∈ players d;
  sound_streaks : ∀ p v, streaks d !! p = Some v → 0 ≤ v < 3;
}.

(** What holds as long as the queue is only reshuffled with idle courts:

    Nobody is listed twice on the roster or in the queue, a court of four
    lists four different players, nobody on a court waits in the queue, and
    nobody stands on two courts. *)
Record exclusive (d : Data) : Prop := mkExclusive {
  excl_roster  : NoDup (players d);
  excl_queue   : NoDup (queue d);
  excl_full    : ∀ j c, courts d !! j = Some c → length c = 4%nat → NoDup c;
  excl_waiting : ∀ j c p, courts d !! j = Some c → p ∈ c → p ∉ queue d;
  excl_courts  : ∀ j k cj ck p, j ≠ k →
                   courts d !! j = Some cj → courts d !! k = Some ck →
                   p ∈ cj → p ∉ ck;
}.

(** Both winners stay and fewer than three players wait: the branch of
    [process_court_result] that leaves a court neither empty nor full. *)
Definition short_reseed (d : Data) (i : nat) (team : string)
    (c' : list string) : Prop :=
  ∃ crt s0 s1 st q,
    courts d !! i = Some crt
    ∧ stay_or_rotate (winners_of team crt) []
        (update_streaks (winners_of team crt) (losers_of team crt) (streaks d))
        (queue d) = Some ([s0; s1], st, q)
    ∧ (length q < 3)%nat
    ∧ (0 < length c' < 4)%nat
    ∧ ∀ p, p ∈ c' → p = s0 ∨ p = s1.

(** ** Sample runs *)

(** Sample states, each reached from the default data through the
    operations themselves. *)
Definition four_on_court : Data :=
  run default_config
    [AddPlayer "A"; AddPlayer "B"; AddPlayer "C"; AddPlayer "D"; AssignAllCourts]
    (default_data default_config).

Definition three_waiting : Data :=
  run default_config
    [AddPlayer "A"; AddPlayer "B"; AddPlayer "C"; AddPlayer "D";
     AddPlayer "E"; AddPlayer "F"; AddPlayer "G"; AssignAllCourts]
    (default_data default_config).

(** Three waiting, and Team 1 has won once on court 0: A and B have streak 2
    and stand at the two ends of the court. *)
Definition second_game : Data :=
  press default_config three_waiting (SubmitResult 0 "Team 1").

(** Four on court 0, then the queue is reshuffled while they play. *)
Definition reshuffled_mid_game : Data :=
  run default_config
    [AddPlayer "A"; AddPlayer "B"; AddPlayer "C"; AddPlayer "D";
     AssignAllCourts; InitializeQueue ["C"; "A"; "D"; "B"]]
    (default_data default_config).


(** Eight players on two courts, a reshuffle in mid-game, a result on court
    0, a second bulk assignment (which puts P3 on courts 0 and 1, because the
    queue listed P3 twice), four late arrivals. *)
Definition double_booked : Data :=
  run default_config
    [AddPlayer "P1"; AddPlayer "P2"; AddPlayer "P3"; AddPlayer "P4";
     AddPlayer "P5"; AddPlayer "P6"; AddPlayer "P7"; AddPlayer "P8";
     AssignAllCourts;
     InitializeQueue ["P6"; "P4"; "P3"; "P8"; "P5"; "P2"; "P1"; "P7"];
     SubmitResult 0 "Team 1";
     AssignAllCourts;
     AddPlayer "P9"; AddPlayer "P10"; AddPlayer "P11"; AddPlayer "P12"]
    (default_data default_config).

(** Two courts and nine players waiting. *)
Definition nine_waiting : Data :=
  run (mkConfig 20 2)
    [AddPlayer "P1"; AddPlayer "P2"; AddPlayer "P3"; AddPlayer "P4";
     AddPlayer "P5"; AddPlayer "P6"; AddPlayer "P7"; AddPlayer "P8";
     AddPlayer "P9"]
    (default_data (mkConfig 20 2)).

(** Membership in the short explicit lists that [reseed] builds. *)
Ltac small_membership :=
  intros;
  repeat match goal with
         | H : _ ∈ _ :: _ |- _ => apply elem_of_cons in H as [->|H]
         | H : _ ∈ [] |- _ => by apply elem_of_nil in H
         end;
  rewrite ?elem_of_cons; tauto.

(** Concrete runs: every press is checked where it is made. *)
Ltac check_presses :=
  cbn [ops_ok shuffle_ok shuffle_idle];
  repeat match goal with
         | |- _ ∧ _ => split
         | |- True => exact I
         | |- _ => compute_done
         end.

(** ** The "Save Config" button of the sidebar (lines 119-129)

    The two sliders deliver the new values; the configuration is replaced
    and the board is rebuilt with one empty court per configured court.
    Whoever stood on a court is not put back into the queue. *)
Definition slider_ok (new_max_players new_num_courts : nat) : Prop :=
  (8 ≤ new_max_players ≤ 30)%nat ∧ (1 ≤ new_num_courts ≤ 5)%nat.

Definition save_config (new_max_players new_num_courts : nat) (d : Data)
    : Config * Data :=
  ({| max_players := new_max_players; num_courts := new_num_courts |},
   {| players := players d;
      queue   := queue d;
      courts  := replicate new_num_courts [];
      streaks := streaks d;
      history := history d |}).

(** Configuration and data as a session carries them: any configuration to
    start with (the configuration file may exist), the default data, then
    button presses and configuration changes in any order. *)
Inductive session : Config → Data → Prop :=
  | session_start cfg : session cfg (default_data cfg)
  | session_press cfg d op :
      session cfg d → shuffle_ok d op → session cfg (press cfg d op)
  | session_config cfg d m n :
      session cfg d → slider_ok m n →
      session (save_config m n d).1 (save_config m n d).2.

(** ** The courts display (lines 157-176) *)

(** What a display loop ends with: everything was written, or an uncaught
    exception stopped the script run (what had been written before stays on
    the page). *)
Inductive shown (A : Type) :=
  | Shown (a : A)
  | Crashed (e : exn).
Arguments Shown {A} a.
Arguments Crashed {A} e.

(** One column of the courts display: the notice of an empty court, or the
    two team lines followed by the winner radio and, once a team is
    selected, the submit button. *)
Inductive column :=
  | NoGame (notice : string)
  | Game (team1_line team2_line : string).

(** The body of the [with col:] block for the court [crt]. *)
Definition show_court (crt : list string) : shown column :=
  match crt with
  | [] => Shown (NoGame "No game assigned.")
  | _ :: _ =>
      match crt !! 0%nat, crt !! 1%nat with
      | Some p0, Some p1 =>
          match crt !! 2%nat, crt !! 3%nat with
          | Some p2, Some p3 =>
              Shown (Game ("**Team 1:** " +:+ p0 +:+ " & " +:+ p1)
                          ("**Team 2:** " +:+ p2 +:+ " & " +:+ p3))
          | _, _ => Crashed IndexError
          end
      | _, _ => Crashed IndexError
      end
  end.

(** The loop [for i, col in enumerate(cols)], started at column [i] with [n]
    columns left. *)
Fixpoint show_from (i n : nat) (board : list (list string))
    : shown (list column) :=
  match n with
  | O => Shown []
  | S n' =>
      match board !! i with
      | None => Crashed IndexError
      | Some crt =>
          match show_court crt with
          | Crashed e => Crashed e
          | Shown col =>
              match show_from (S i) n' board with
              | Crashed e => Crashed e
              | Shown cols => Shown (col :: cols)
              end
          end
      end
  end.

Definition show_courts (cfg : Config) (d : Data) : shown (list column) :=
  show_from 0 (num_courts cfg) (courts d).

(** ** The match history display (lines 178-187) *)

(** The matches that the loop over [reversed(data["history"][-10:])] writes,
    in the order it writes them. *)
Definition recent_matches (h : list Match) : list Match :=
  reverse (drop (length h - 10) h).

(** * Properties of single calls *)

(** ** The list primitives *)

Lemma pop_many_take_drop {A} (n : nat) (l : list A) :
  (n ≤ length l)%nat → pop_many n l = Some (take n l, drop n l).
Proof.
  revert l. induction n as [|n IH]; intros l Hn.
  - by rewrite take_0, drop_0.
  - destruct l as [|x l]; simpl in *; [lia|].
    rewrite IH by lia. done.
Qed.

Lemma pop_many_short {A} (n : nat) (l : list A) :
  (length l < n)%nat → pop_many n l = None.
Proof.
  revert l. induction n as [|n IH]; intros l Hn; [lia|].
  destruct l as [|x l]; simpl in *; [done|].
  rewrite IH by lia. done.
Qed.

(** ** The streak loops *)

Lemma set_streaks_cons v x ps st :
  set_streaks v (x :: ps) st = set_streaks v ps (<[x:=v]> st).
Proof. done. Qed.

Lemma bump_streaks_cons x ws st :
  bump_streaks (x :: ws) st = bump_streaks ws (<[x:=default 0 (st !! x) + 1]> st).
Proof. done. Qed.

Lemma set_streaks_notin v ps st p :
  p ∉ ps → set_streaks v ps st !! p = st !! p.
Proof.
  revert st. induction ps as [|x ps IH]; intros st Hp; [done|].
  apply not_elem_of_cons in Hp as [Hne Hp].
  rewrite set_streaks_cons, IH by done.
  by rewrite lookup_insert_ne.
Qed.

Lemma set_streaks_in v ps st p :
  p ∈ ps → set_streaks v ps st !! p = Some v.
Proof.
  revert st. induction ps as [|x ps IH]; intros st Hp.
  - by apply elem_of_nil in Hp.
  - rewrite set_streaks_cons. destruct (decide (p ∈ ps)) as [Hin|Hnin].
    + by apply IH.
    + apply elem_of_cons in Hp as [->|Hp]; [|done].
      rewrite set_streaks_notin by done. apply lookup_insert_eq.
Qed.

Lemma bump_streaks_notin ws st p :
  p ∉ ws → bump_streaks ws st !! p = st !! p.
Proof.
  revert st. induction ws as [|x ws IH]; intros st Hp; [done|].
  apply not_elem_of_cons in Hp as [Hne Hp].
  rewrite bump_streaks_cons, IH by done.
  by rewrite lookup_insert_ne.
Qed.

Lemma bump_streaks_bound ws st p :
  is_Some (st !! p) ∨ p ∈ ws → is_Some (bump_streaks ws st !! p).
Proof.
  revert st. induction ws as [|x ws IH]; intros st [Hs|Hin].
  - done.
  - by apply elem_of_nil in Hin.
  - rewrite bump_streaks_cons. apply IH. left.
    destruct (decide (x = p)) as [->|Hne].
    + rewrite lookup_insert_eq. eauto.
    + by rewrite lookup_insert_ne.
  - rewrite bump_streaks_cons. apply IH.
    apply elem_of_cons in Hin as [->|Hin]; [left|by right].
    rewrite lookup_insert_eq. eauto.
Qed.

(** A winner that appears once among the winners gets its old streak, read
    with default 0, plus one. *)
Lemma bump_streaks_once ws st p :
  p ∈ ws → NoDup ws → bump_streaks ws st !! p = Some (default 0 (st !! p) + 1).
Proof.
  revert st. induction ws as [|x ws IH]; intros st Hin Hnd.
  - by apply elem_of_nil in Hin.
  - apply NoDup_cons in Hnd as [Hx Hnd]. rewrite bump_streaks_cons.
    apply elem_of_cons in Hin as [->|Hin].
    + rewrite bump_streaks_notin by done. apply lookup_insert_eq.
    + rewrite IH by done.
      rewrite lookup_insert_ne; [done|]. intros ->. done.
Qed.

Lemma update_streaks_bound ws ls st p :
  p ∈ ws → is_Some (update_streaks ws ls st !! p).
Proof.
  intros Hin. unfold update_streaks.
  destruct (decide (p ∈ ls)) as [Hl|Hl].
  - rewrite set_streaks_in by done. eauto.
  - rewrite set_streaks_notin by done. apply bump_streaks_bound. by right.
Qed.

(** ** The stay-or-rotate loop

    The loop splits the winners into those that stay and those that are
    rotated out, keeping the order inside each part; a rotated winner is
    appended to the queue as it stands at that iteration and has streak 0
    afterwards, a staying winner has a streak below the cap afterwards, and
    nobody else's streak is touched. *)
Lemma stay_or_rotate_spec ws acc st q :
  (∀ w, w ∈ ws → is_Some (st !! w)) →
  ∃ stay rot st',
    stay_or_rotate ws acc st q = Some (acc ++ stay, st', q ++ rot)
    ∧ stay ++ rot ≡ₚ ws
    ∧ (∀ p, p ∈ rot → st' !! p = Some 0)
    ∧ (∀ p, p ∉ rot → st' !! p = st !! p)
    ∧ (∀ p, p ∈ stay → ∃ v, st' !! p = Some v ∧ v < 3)
    ∧ (∀ p v, p ∈ rot → p ∉ stay → st !! p = Some v → 3 ≤ v).
Proof.
  revert acc st q. induction ws as [|w ws IH]; intros acc st q Hb.
  - exists [], [], st. rewrite !app_nil_r. simpl.
    repeat split; try done; intros p; try (intros ? Hp); try (intros Hp);
      by apply elem_of_nil in Hp.
  - simpl. destruct (Hb w) as [v Hv]; [by left|]. rewrite Hv.
    destruct (decide (v < 3)) as [Hlt|Hge].
    + destruct (IH (acc ++ [w]) st q) as (stay & rot & st' & Heq & Hperm & H0 & Hsame & Hstay & Hcap).
      { intros w' Hw'. apply Hb. by right. }
      exists (w :: stay), rot, st'. rewrite Heq, <- app_assoc. simpl.
      repeat split; try done.
      * by rewrite Hperm.
      * intros p Hp. apply elem_of_cons in Hp as [->|Hp]; [|by apply Hstay].
        destruct (decide (w ∈ rot)) as [Hr|Hr].
        -- exists 0. split; [by apply H0|lia].
        -- exists v. split; [by rewrite Hsame|done].
      * intros p v' Hp Hns Hpv. apply (Hcap p v'); try done.
        intros Hps. apply Hns. by right.
    + destruct (IH acc (<[w:=0]> st) (q ++ [w])) as (stay & rot & st' & Heq & Hperm & H0 & Hsame & Hstay & Hcap).
      { intros w' Hw'. destruct (decide (w = w')) as [->|Hne].
        - rewrite lookup_insert_eq. eauto.
        - rewrite lookup_insert_ne by done. apply Hb. by right. }
      exists stay, (w :: rot), st'. rewrite Heq, <- app_assoc. simpl.
      repeat split; try done.
      * rewrite <- Hperm. symmetry. apply Permutation_middle.
      * intros p Hp. destruct (decide (p ∈ rot)) as [Hr|Hr]; [by apply H0|].
        apply elem_of_cons in Hp as [->|Hp]; [|done].
        rewrite Hsame by done. apply lookup_insert_eq.
      * intros p Hp. apply not_elem_of_cons in Hp as [Hne Hp].
        rewrite Hsame by done. by rewrite lookup_insert_ne.
      * intros p v' Hp Hns Hpv. destruct (decide (p = w)) as [->|Hne].
        -- rewrite Hv in Hpv. injection Hpv as <-. lia.
        -- apply elem_of_cons in Hp as [->|Hp]; [done|].
           apply (Hcap p v'); try done. by rewrite lookup_insert_ne.
Qed.

(** ** The reseed step *)

Lemma reseed_total staying q : is_Some (reseed staying q).
Proof.
  unfold reseed. destruct staying as [|s0 [|s1 [|s2 staying]]]; eauto.
  case_decide as Hq; eauto.
  destruct q as [|a [|b q]]; simpl in *; eauto; lia.
Qed.

(** Whatever [reseed] builds has at most four entries. *)
Lemma reseed_length staying q new_court q' :
  reseed staying q = Some (new_court, q') → (length new_court ≤ 4)%nat.
Proof.
  unfold reseed. intros H.
  destruct staying as [|s0 [|s1 [|s2 staying]]]; simplify_eq/=; try lia.
  case_decide; [|simplify_eq/=; lia].
  destruct q as [|a [|b q]]; simplify_eq/=; lia.
Qed.

(** ** process_court_result, unfolded once

    On a court with at least four entries the call always reaches
    [save_json]: the streak read of the stay-or-rotate loop finds every winner
    (the loop before it has just written them), and both [pop(0)] are guarded
    by the length test. *)
Lemma process_court_result_done i team d crt :
  courts d !! i = Some crt → (4 ≤ length crt)%nat →
  let ws := winners_of team crt in
  let ls := losers_of team crt in
  let st := update_streaks ws ls (streaks d) in
  ∃ stay rot st' new_court q',
    stay_or_rotate ws [] st (queue d) = Some (stay, st', queue d ++ rot)
    ∧ reseed stay (queue d ++ rot) = Some (new_court, q')
    ∧ process_court_result i team d =
        Done {| players := players d;
                queue   := q' ++ ls;
                courts  := <[i := new_court]> (courts d);
                streaks := st';
                history := history d ++
                  [ {| court := Z.of_nat i + 1; winners := ws; losers := ls |} ] |}
    ∧ stay ++ rot ≡ₚ ws
    ∧ (∀ p, p ∈ rot → st' !! p = Some 0)
    ∧ (∀ p, p ∉ rot → st' !! p = st !! p)
    ∧ (∀ p, p ∈ stay → ∃ v, st' !! p = Some v ∧ v < 3)
    ∧ (∀ p v, p ∈ rot → p ∉ stay → st !! p = Some v → 3 ≤ v).
Proof.
  intros Hc Hlen ws ls st.
  destruct (stay_or_rotate_spec ws [] st (queue d))
    as (stay & rot & st' & Heq & Hperm & H0 & Hsame & Hstay & Hcap).
  { intros w Hw. by apply update_streaks_bound. }
  simpl in Heq.
  destruct (reseed_total stay (queue d ++ rot)) as [[new_court q'] Hre].
  exists stay, rot, st', new_court, q'.
  repeat split; try done.
  unfold process_court_result. rewrite Hc.
  case_decide; [lia|].
  fold ws ls st. by rewrite Heq, Hre.
Qed.

Lemma process_court_result_short i team d crt :
  courts d !! i = Some crt → (length crt < 4)%nat →
  process_court_result i team d = Warned "Not enough players on this court." d.
Proof.
  intros Hc Hlen. unfold process_court_result. rewrite Hc.
  by case_decide.
Qed.

Lemma process_court_result_range i team d :
  courts d !! i = None → process_court_result i team d = Raised IndexError.
Proof. intros Hc. unfold process_court_result. by rewrite Hc. Qed.

(** * The claims about single calls *)

(** C5. In [process_court_result], when the stay-or-rotate loop leaves exactly
    two staying winners [s0], [s1] and the queue holds at least three players
    at that point, the court is reseeded as [[s0; q1; q2; s1]] where [q1] and
    [q2] are the first two players of the queue, in order; they leave the
    queue, and the losers are appended behind what is left. *)
Theorem process_reseeds_from_queue i team d crt s0 s1 st q :
  courts d !! i = Some crt → (4 ≤ length crt)%nat →
  stay_or_rotate (winners_of team crt) []
    (update_streaks (winners_of team crt) (losers_of team crt) (streaks d))
    (queue d) = Some ([s0; s1], st, q) →
  (3 ≤ length q)%nat →
  ∃ q1 q2 d',
    q = q1 :: q2 :: drop 2 q
    ∧ process_court_result i team d = Done d'
    ∧ courts d' = <[i := [s0; q1; q2; s1]]> (courts d)
    ∧ courts d' !! i = Some [s0; q1; q2; s1]
    ∧ queue d' = drop 2 q ++ losers_of team crt.
Proof.
  intros Hc Hlen Hstay Hq.
  destruct q as [|q1 [|q2 q]]; simpl in Hq; try lia.
  exists q1, q2. eexists. split; [done|].
  unfold process_court_result. rewrite Hc.
  case_decide; [lia|]. rewrite Hstay. simpl.
  case_decide; [|simpl in *; lia].
  split; [done|]. simpl. repeat split.
  apply list_lookup_insert_eq. by apply lookup_lt_Some in Hc.
Qed.

Lemma process_reseeds_from_queue_witness :
  ∃ q1 q2 d',
    ["E"; "F"; "G"] = q1 :: q2 :: drop 2 ["E"; "F"; "G"]
    ∧ process_court_result 0 "Team 1" three_waiting = Done d'
    ∧ courts d' = <[0%nat := ["A"; q1; q2; "B"]]> (courts three_waiting)
    ∧ courts d' !! 0%nat = Some ["A"; q1; q2; "B"]
    ∧ queue d' = drop 2 ["E"; "F"; "G"] ++ losers_of "Team 1" ["A"; "B"; "C"; "D"].
Proof.
  apply (process_reseeds_from_queue 0 "Team 1" three_waiting
           ["A"; "B"; "C"; "D"] "A" "B"
           (<["D":=0]> (<["C":=0]> (<["B":=2]> (<["A":=2]>
              (streaks three_waiting)))))
           ["E"; "F"; "G"]).
  - reflexivity.
  - simpl. lia.
  - vm_compute. reflexivity.
  - simpl. lia.
Defined.

(** With two staying winners and fewer than three players waiting, the
    [else] branch of line 88 extends [[staying[0]]] by the whole of
    [staying]: the first staying winner is listed twice. *)
Lemma reseed_short_queue s0 s1 q :
  (length q < 3)%nat → reseed [s0; s1] q = Some ([s0; s0; s1], q).
Proof. intros Hq. unfold reseed. case_decide; [lia|done]. Qed.

(** C3. The call of [process_court_result 0 "Team 1"] on the court
    [A, B, C, D] with an empty queue: both winners stay, fewer than three
    players wait, and the court is left as [[A; A; B]], which is not
    [[staying[0], staying[1]] = [A; B]]. *)
Theorem process_short_queue_duplicates_first_winner :
  queue four_on_court = []
  ∧ courts four_on_court !! 0%nat = Some ["A"; "B"; "C"; "D"]
  ∧ stay_or_rotate ["A"; "B"] []
      (update_streaks ["A"; "B"] ["C"; "D"] (streaks four_on_court))
      (queue four_on_court)
    = Some (["A"; "B"],
            update_streaks ["A"; "B"] ["C"; "D"] (streaks four_on_court), [])
  ∧ ∃ d', process_court_result 0 "Team 1" four_on_court = Done d'
    ∧ courts d' !! 0%nat = Some ["A"; "A"; "B"]
    ∧ courts d' !! 0%nat ≠ Some ["A"; "B"].
Proof.
  split; [by vm_compute|]. split; [by vm_compute|]. split; [by vm_compute|].
  eexists. split; [by vm_compute|]. split; [by vm_compute|]. by vm_compute.
Qed.

(** C9. The call of [process_court_result 0 "Team 1"] on the court
    [A, B, C, D] with [E, F, G] waiting: [E] and [F] are dequeued onto the
    court, where they stand for the first time, and have no streak entry
    afterwards, whereas [assign_all_courts] had given [A] and [B] the
    streak 1 when it placed them. *)
Theorem process_reseed_leaves_streak_unset :
  streaks three_waiting !! "A" = Some 1
  ∧ streaks three_waiting !! "B" = Some 1
  ∧ streaks three_waiting !! "E" = None
  ∧ ∃ d', process_court_result 0 "Team 1" three_waiting = Done d'
    ∧ courts d' !! 0%nat = Some ["A"; "E"; "F"; "B"]
    ∧ streaks d' !! "E" = None
    ∧ streaks d' !! "F" = None
    ∧ streaks d' !! "E" ≠ Some 1.
Proof.
  split; [by vm_compute|]. split; [by vm_compute|]. split; [by vm_compute|].
  eexists. split; [by vm_compute|].
  split; [by vm_compute|]. split; [by vm_compute|].
  split; by vm_compute.
Qed.

(** ** assign_all_courts *)

Lemma elem_of_take_list {A} (n : nat) (l : list A) x : x ∈ take n l → x ∈ l.
Proof.
  intros Hx. rewrite <- (take_drop n l). apply elem_of_app. by left.
Qed.

Lemma elem_of_drop_list {A} (n : nat) (l : list A) x : x ∈ drop n l → x ∈ l.
Proof.
  intros Hx. rewrite <- (take_drop n l). apply elem_of_app. by right.
Qed.

Lemma set_streaks_app v ps qs st :
  set_streaks v (ps ++ qs) st = set_streaks v qs (set_streaks v ps st).
Proof. unfold set_streaks. apply foldl_app. Qed.

(** What the loop of [assign_all_courts] does when the board has a slot for
    every index it visits: it fills [m] courts, where [m] is the number of
    whole foursomes in the queue, capped by the number of iterations; court
    [i + j] receives the [j]-th foursome of the queue, every court outside
    [i .. i + m - 1] keeps its content, the [4 * m] players placed get
    streak 1, and the rest of the queue stays in order. *)
Lemma assign_from_spec n i d :
  (i + n ≤ length (courts d))%nat →
  ∃ m d',
    (m ≤ n)%nat ∧ (4 * m ≤ length (queue d))%nat
    ∧ (m = n ∨ length (queue d) < 4 * m + 4)%nat
    ∧ assign_from i n d = Done d'
    ∧ players d' = players d
    ∧ history d' = history d
    ∧ queue d' = drop (4 * m) (queue d)
    ∧ streaks d' = set_streaks 1 (take (4 * m) (queue d)) (streaks d)
    ∧ length (courts d') = length (courts d)
    ∧ (∀ j, (i ≤ j < i + m)%nat →
         courts d' !! j = Some (take 4 (drop (4 * (j - i)) (queue d))))
    ∧ (∀ j, ¬ (i ≤ j < i + m)%nat → courts d' !! j = courts d !! j).
Proof.
  revert i d. induction n as [|n IH]; intros i d Hlen.
  - exists 0%nat, d. simpl. rewrite drop_0.
    split_and!; try done; try lia; intros j Hj; lia.
  - cbn [assign_from]. case_decide as Hq.
    + exists 0%nat, d. simpl. rewrite drop_0.
      split_and!; try done; try lia; intros j Hj; lia.
    + rewrite pop_many_take_drop by lia.
      case_decide as Hi; [|lia].
      set (d1 := {| players := players d; queue := drop 4 (queue d);
                    courts := <[i:=take 4 (queue d)]> (courts d);
                    streaks := set_streaks 1 (take 4 (queue d)) (streaks d);
                    history := history d |}).
      destruct (IH (S i) d1) as (m & d' & Hm & H4 & Hstop & Heq & Hp & Hh & Hqu & Hst & Hcl & Hin & Hout).
      { simpl. rewrite length_insert. lia. }
      simpl in H4, Hstop, Hp, Hh, Hqu, Hst, Hcl, Hin, Hout.
      rewrite length_drop in H4, Hstop. rewrite length_insert in Hcl.
      exists (S m), d'. split_and!; try done; try lia.
      * rewrite Hqu, drop_drop. f_equal. lia.
      * rewrite Hst, <- set_streaks_app, take_take_drop. do 2 f_equal. lia.
      * intros j Hj. destruct (decide (j = i)) as [->|Hne].
        -- rewrite Hout by lia. rewrite list_lookup_insert_eq by done.
           by rewrite Nat.sub_diag.
        -- rewrite Hin by lia. rewrite drop_drop. do 3 f_equal. lia.
      * intros j Hj. rewrite Hout by lia.
        apply list_lookup_insert_ne. lia.
Qed.

Lemma four_of_length {A} (l : list A) :
  length l = 4%nat → ∃ a b c e, l = [a; b; c; e].
Proof.
  intros Hl. destruct l as [|a [|b [|c [|e [|x l]]]]]; simplify_eq/=.
  by exists a, b, c, e.
Qed.

(** A board whose [j]-th court is the [j]-th foursome of [q] lists, court
    after court, the first [4 * k] entries of [q]. *)
Lemma concat_foursomes (k : nat) (cs : list (list string)) (q : list string) :
  length cs = k →
  (∀ j, (j < k)%nat → cs !! j = Some (take 4 (drop (4 * j) q))) →
  concat cs = take (4 * k) q.
Proof.
  revert k q. induction cs as [|c cs IH]; intros k q Hk Hj.
  - simpl in Hk. subst k. done.
  - simpl in Hk. destruct k as [|k]; [done|].
    pose proof (Hj 0%nat ltac:(lia)) as H0. simpl in H0.
    injection H0 as ->. simpl.
    rewrite (IH k (drop 4 q)).
    + rewrite take_take_drop. f_equal. lia.
    + lia.
    + intros j Hlt. specialize (Hj (S j) ltac:(lia)). simpl in Hj.
      rewrite Hj, drop_drop. do 3 f_equal. lia.
Qed.

(** C6. With a board of [k = num_courts] empty courts and at least [4 * k]
    players waiting, [assign_all_courts] takes exactly the first [4 * k]
    players off the queue, leaves the others in order, puts the [j]-th group
    of four on court [j] in queue order (so that its first two are Team 1
    and its last two Team 2 for [process_court_result]), and gives each
    player placed the streak 1. *)
Theorem assign_all_courts_fills_board cfg d :
  courts d = replicate (num_courts cfg) [] →
  (4 * num_courts cfg ≤ length (queue d))%nat →
  ∃ d',
    assign_all_courts cfg d = Done d'
    ∧ queue (d') = drop (4 * num_courts cfg) (queue d)
    ∧ queue d = concat (courts d') ++ queue d'
    ∧ length (courts d') = num_courts cfg
    ∧ (∀ j, (j < num_courts cfg)%nat →
         ∃ a b c e,
           courts d' !! j = Some [a; b; c; e]
           ∧ take 4 (drop (4 * j) (queue d)) = [a; b; c; e]
           ∧ winners_of "Team 1" [a; b; c; e] = [a; b]
           ∧ winners_of "Team 2" [a; b; c; e] = [c; e])
    ∧ (∀ p, p ∈ take (4 * num_courts cfg) (queue d) → streaks d' !! p = Some 1)
    ∧ (∀ p, p ∉ take (4 * num_courts cfg) (queue d) →
         streaks d' !! p = streaks d !! p)
    ∧ players d' = players d
    ∧ history d' = history d.
Proof.
  intros Hc Hq. unfold assign_all_courts.
  destruct (assign_from_spec (num_courts cfg) 0 d)
    as (m & d' & Hm & H4 & Hstop & Heq & Hp & Hh & Hqu & Hst & Hcl & Hin & Hout).
  { rewrite Hc, length_replicate. lia. }
  assert (m = num_courts cfg) as -> by lia.
  rewrite Hc, length_replicate in Hcl.
  exists d'. split_and!; try done.
  - rewrite Hqu, (concat_foursomes (num_courts cfg) (courts d') (queue d)).
    + by rewrite take_drop.
    + done.
    + intros j Hj. rewrite Hin by lia. do 3 f_equal. lia.
  - intros j Hj.
    destruct (four_of_length (take 4 (drop (4 * j) (queue d))))
      as (a & b & c & e & Hfour).
    { rewrite length_take, length_drop. lia. }
    exists a, b, c, e. split_and!; try done.
    rewrite Hin by lia. rewrite Nat.sub_0_r. by rewrite Hfour.
  - intros p Hin'. rewrite Hst. by apply set_streaks_in.
  - intros p Hnin. rewrite Hst. by apply set_streaks_notin.
Qed.

(** * Reachable states *)

Lemma elem_of_on_court d p :
  p ∈ on_court d ↔ ∃ j c, courts d !! j = Some c ∧ p ∈ c.
Proof.
  unfold on_court. generalize (courts d) as cs.
  induction cs as [|c cs IH]; simpl.
  - split; [intros H; by apply elem_of_nil in H|].
    intros (j & c & Hj & _). by rewrite lookup_nil in Hj.
  - rewrite elem_of_app, IH. split.
    + intros [Hc|(j & c' & Hj & Hp)].
      * by exists 0%nat, c.
      * by exists (S j), c'.
    + intros ([|j] & c' & Hj & Hp); simplify_eq/=; [by left|].
      right. by exists j, c'.
Qed.

Lemma reach_mono (ok1 ok2 : Data → Op → Prop) cfg d :
  (∀ d op, ok1 d op → ok2 d op) → reach ok1 cfg d → reach ok2 cfg d.
Proof.
  intros Hok. induction 1 as [|d op _ IH Hop]; [constructor|].
  apply reach_press; [done|]. by apply Hok.
Qed.

Lemma reachable_idle_reachable cfg d : reachable_idle cfg d → reachable cfg d.
Proof.
  apply reach_mono. intros d' [] H; simpl in *; try done. by destruct H.
Qed.

Lemma reach_run ok cfg ops d :
  reach ok cfg d → ops_ok ok cfg d ops → reach ok cfg (run cfg ops d).
Proof.
  revert d. induction ops as [|op ops IH]; intros d Hd Hops; [done|].
  destruct Hops as [Hop Hops]. simpl. apply IH; [|done].
  by apply reach_press.
Qed.

(** An invariant of the data passes through one press as soon as every
    operation that saves preserves it. *)
Lemma press_preserves (P : Data → Prop) cfg d op :
  P d → (∀ d', exec cfg op d = Done d' → P d') → P (press cfg d op).
Proof.
  intros Hd Hstep. unfold press.
  destruct (exec cfg op d) as [d'| | |] eqn:He; simpl; auto.
Qed.

(** Whatever every assigning iteration preserves, the whole loop preserves. *)
Lemma assign_from_preserves (P : Data → Prop) n i d d' :
  (∀ i d, P d → (4 ≤ length (queue d))%nat → (i < length (courts d))%nat →
          P (assign_one i d)) →
  P d → assign_from i n d = Done d' → P d'.
Proof.
  intros Hstep. revert i d. induction n as [|n IH]; intros i d Hd Heq.
  - simpl in Heq. by injection Heq as <-.
  - cbn [assign_from] in Heq. case_decide as Hq; [by injection Heq as <-|].
    rewrite pop_many_take_drop in Heq by lia.
    case_decide as Hi; [|done].
    eapply IH; [|exact Heq]. apply Hstep; [done|lia|done].
Qed.

Lemma sound_default cfg : sound cfg (default_data cfg).
Proof.
  split; simpl.
  - apply length_replicate.
  - intros j c Hj. apply lookup_replicate in Hj as [-> _]. simpl. lia.
  - intros p Hp. by apply elem_of_nil in Hp.
  - intros j c p Hj Hp. apply lookup_replicate in Hj as [-> _].
    by apply elem_of_nil in Hp.
  - intros p v Hp. by rewrite lookup_empty in Hp.
Qed.

Lemma sound_add_player cfg name d d' :
  sound cfg d → add_player cfg name d = Done d' → sound cfg d'.
Proof.
  intros [Hb Hs Hq Hc Hst]. unfold add_player.
  repeat case_decide; intros Heq; simplify_eq.
  split; simpl; try done.
  - intros p Hp. apply elem_of_app in Hp as [Hp|Hp]; apply elem_of_app; auto.
  - intros j c p Hj Hp. apply elem_of_app. left. eauto.
Qed.

Lemma sound_initialize_queue cfg shuffled d d' :
  sound cfg d → shuffled ≡ₚ players d →
  initialize_queue shuffled d = Done d' → sound cfg d'.
Proof.
  intros [Hb Hs Hq Hc Hst] Hperm. unfold initialize_queue.
  destruct (players d) eqn:Hp; intros Heq; simplify_eq.
  split; simpl; try done.
  intros p Hin. by rewrite Hperm in Hin.
Qed.

Lemma sound_assign_one cfg i d :
  sound cfg d → (4 ≤ length (queue d))%nat → (i < length (courts d))%nat →
  sound cfg (assign_one i d).
Proof.
  intros [Hb Hs Hq Hc Hst] Hlen Hi. split; simpl.
  - by rewrite length_insert.
  - intros j c Hj. apply list_lookup_insert_Some in Hj as [(-> & <- & _)|[_ Hj]].
    + rewrite length_take. lia.
    + eauto.
  - intros p Hp. apply Hq. by eapply elem_of_drop_list.
  - intros j c p Hj Hp.
    apply list_lookup_insert_Some in Hj as [(-> & <- & _)|[_ Hj]]; [|eauto].
    apply Hq. by eapply elem_of_take_list.
  - intros p v Hp. destruct (decide (p ∈ take 4 (queue d))) as [Hin|Hnin].
    + rewrite set_streaks_in in Hp by done. injection Hp as <-. lia.
    + rewrite set_streaks_notin in Hp by done. eauto.
Qed.

Lemma winners_losers_court team crt :
  winners_of team crt ++ losers_of team crt ≡ₚ crt.
Proof.
  unfold winners_of, losers_of. destruct (team1 team).
  - by rewrite take_drop.
  - rewrite Permutation_app_comm. by rewrite take_drop.
Qed.

Lemma bump_streaks_nonneg ws st :
  (∀ p v, st !! p = Some v → 0 ≤ v) →
  ∀ p v, bump_streaks ws st !! p = Some v → 0 ≤ v.
Proof.
  revert st. induction ws as [|w ws IH]; intros st Hst; [done|].
  rewrite bump_streaks_cons. apply IH.
  intros p v Hp. destruct (decide (w = p)) as [->|Hne].
  - rewrite lookup_insert_eq in Hp. injection Hp as <-.
    destruct (st !! p) as [v0|] eqn:Hv0; simpl; [|lia].
    apply Hst in Hv0. lia.
  - rewrite lookup_insert_ne in Hp by done. eauto.
Qed.

Lemma update_streaks_nonneg ws ls st :
  (∀ p v, st !! p = Some v → 0 ≤ v) →
  ∀ p v, update_streaks ws ls st !! p = Some v → 0 ≤ v.
Proof.
  intros Hst p v. unfold update_streaks.
  destruct (decide (p ∈ ls)) as [Hl|Hl].
  - rewrite set_streaks_in by done. intros [= <-]. lia.
  - rewrite set_streaks_notin by done. by apply bump_streaks_nonneg.
Qed.

(** Somebody who is not a winner ends the two streak loops with the streak
    he had, or with 0 if he lost. *)
Lemma update_streaks_other ws ls st p v :
  p ∉ ws → update_streaks ws ls st !! p = Some v →
  (p ∈ ls ∧ v = 0) ∨ ((p ∉ ls) ∧ st !! p = Some v).
Proof.
  intros Hw. unfold update_streaks.
  destruct (decide (p ∈ ls)) as [Hl|Hl].
  - rewrite set_streaks_in by done. intros [= <-]. by left.
  - rewrite set_streaks_notin, bump_streaks_notin by done. by right.
Qed.

(** The players of the new court are staying winners or were taken from the
    head of the queue; a new court of four lists each of them once. *)
Lemma reseed_spec staying q new_court q' :
  reseed staying q = Some (new_court, q') →
  ∃ taken,
    q = taken ++ q'
    ∧ (∀ p, p ∈ new_court → p ∈ staying ∨ p ∈ taken)
    ∧ (length new_court = 4%nat → new_court ≡ₚ staying ++ taken).
Proof.
  unfold reseed. intros H.
  destruct staying as [|s0 [|s1 [|s2 staying]]]; simplify_eq/=;
    try (exists []; split_and!; [done|by intros p ?%elem_of_nil|done]).
  case_decide.
  - destruct q as [|a [|b q]]; simplify_eq/=.
    exists [a; b]. split_and!; [done|by small_membership|].
    intros _. simpl. apply perm_skip.
    apply (Permutation_app_comm [a; b] [s1]).
  - simplify_eq/=. exists []. split_and!; [done|by small_membership|done].
Qed.

Lemma sound_process_court_result cfg i team d d' :
  sound cfg d → process_court_result i team d = Done d' → sound cfg d'.
Proof.
  intros [Hb Hs Hq Hc Hst] Heq.
  destruct (courts d !! i) as [crt|] eqn:Hi;
    [|by rewrite process_court_result_range in Heq].
  destruct (decide (length crt < 4)%nat) as [Hshort|Hfull];
    [by rewrite (process_court_result_short _ _ _ crt) in Heq|].
  destruct (process_court_result_done i team d crt Hi ltac:(lia))
    as (stay & rot & st' & nc & q' & Hloop & Hre & Hdone & Hperm & H0 & Hsame & Hstay & _).
  rewrite Hdone in Heq. injection Heq as <-.
  destruct (reseed_spec _ _ _ _ Hre) as (taken & Hsplit & Hnc & _).
  pose proof (winners_losers_court team crt) as Hwl.
  assert (∀ p, p ∈ stay ++ rot → p ∈ crt) as Hws.
  { intros p Hp. rewrite <- Hwl. apply elem_of_app. left. by rewrite <- Hperm. }
  assert (∀ p, p ∈ losers_of team crt → p ∈ crt) as Hls.
  { intros p Hp. rewrite <- Hwl. apply elem_of_app. by right. }
  assert (∀ p, p ∈ taken ++ q' → p ∈ players d) as Hpool.
  { intros p Hp. rewrite <- Hsplit in Hp.
    apply elem_of_app in Hp as [Hp|Hp]; [by apply Hq|].
    apply (Hc i crt); [done|]. apply Hws, elem_of_app. by right. }
  split; simpl.
  - by rewrite length_insert.
  - intros j c Hj. apply list_lookup_insert_Some in Hj as [(<- & <- & _)|[_ Hj]].
    + by eapply reseed_length.
    + eauto.
  - intros p Hp. apply elem_of_app in Hp as [Hp|Hp].
    + apply Hpool, elem_of_app. by right.
    + apply (Hc i crt); [done|]. by apply Hls.
  - intros j c p Hj Hp.
    apply list_lookup_insert_Some in Hj as [(<- & <- & _)|[_ Hj]]; [|eauto].
    destruct (Hnc p Hp) as [Hin|Hin].
    + apply (Hc i crt); [done|]. apply Hws, elem_of_app. by left.
    + apply Hpool, elem_of_app. by left.
  - intros p v Hp.
    destruct (decide (p ∈ rot)) as [Hr|Hr].
    { rewrite H0 in Hp by done. injection Hp as <-. lia. }
    assert (0 ≤ v) as Hlow.
    { rewrite Hsame in Hp by done.
      eapply (update_streaks_nonneg _ _ (streaks d)); [|exact Hp].
      intros p0 v0 Hp0. apply Hst in Hp0. lia. }
    destruct (decide (p ∈ stay)) as [Hin|Hnin].
    { destruct (Hstay p Hin) as (v' & Hv' & Hlt). simplify_eq. lia. }
    rewrite Hsame in Hp by done.
    apply update_streaks_other in Hp as [[_ ->]|[_ Hp]].
    + lia.
    + by apply Hst in Hp.
    + rewrite <- Hperm. intros [?|?]%elem_of_app; done.
Qed.

Lemma sound_press cfg d op :
  sound cfg d → shuffle_ok d op → sound cfg (press cfg d op).
Proof.
  intros Hd Hok. apply press_preserves; [done|]. intros d' Heq.
  destruct op as [name|shuffled| |i team|]; simpl in *.
  - by eapply sound_add_player.
  - by eapply sound_initialize_queue.
  - eapply (assign_from_preserves (sound cfg)); [|exact Hd|exact Heq].
    intros. by apply sound_assign_one.
  - by eapply sound_process_court_result.
  - unfold reset_all_data in Heq. injection Heq as <-. apply sound_default.
Qed.

(** Every reachable state is sound. *)
Lemma reachable_sound cfg d : reachable cfg d → sound cfg d.
Proof.
  induction 1 as [|d op _ IH Hop]; [apply sound_default|].
  by apply sound_press.
Qed.

Lemma exclusive_default cfg : exclusive (default_data cfg).
Proof.
  split; simpl.
  - apply NoDup_nil_2.
  - apply NoDup_nil_2.
  - intros j c Hj. apply lookup_replicate in Hj as [-> _]. done.
  - intros j c p Hj Hp. apply lookup_replicate in Hj as [-> _].
    by apply elem_of_nil in Hp.
  - intros j k cj ck p _ Hj _ Hp. apply lookup_replicate in Hj as [-> _].
    by apply elem_of_nil in Hp.
Qed.

(** Court [i] and the queue are rewritten with players drawn from the old
    court [i] and the old queue only. *)
Lemma exclusive_replace d i crt nc q' st h :
  exclusive d → courts d !! i = Some crt →
  NoDup q' → (length nc = 4%nat → NoDup nc) →
  (∀ p, p ∈ nc → p ∉ q') →
  (∀ p, p ∈ q' ∨ p ∈ nc → p ∈ queue d ∨ p ∈ crt) →
  exclusive {| players := players d; queue := q';
               courts := <[i := nc]> (courts d);
               streaks := st; history := h |}.
Proof.
  intros [Hr Hq Hf Hw Hc] Hi Hq' Hnc Hdisj Hfrom.
  assert (∀ k ck p, k ≠ i → courts d !! k = Some ck → p ∈ ck →
            ¬ (p ∈ queue d ∨ p ∈ crt)) as Hout.
  { intros k ck p Hk Hck Hp [Hin|Hin].
    - by apply (Hw k ck p).
    - by apply (Hc k i ck crt p). }
  split; simpl; try done.
  - intros j c Hj. apply list_lookup_insert_Some in Hj as [(<- & <- & _)|[_ Hj]]; eauto.
  - intros j c p Hj Hp Hin.
    apply list_lookup_insert_Some in Hj as [(<- & <- & _)|[Hne Hj]].
    + by apply (Hdisj p).
    + apply (Hout j c p); auto.
  - intros j k cj ck p Hjk Hj Hk Hpj Hpk.
    apply list_lookup_insert_Some in Hj as [(<- & <- & _)|[Hnej Hj]];
      apply list_lookup_insert_Some in Hk as [(<- & <- & _)|[Hnek Hk]].
    + done.
    + apply (Hout k ck p); auto.
    + apply (Hout j cj p); auto.
    + by apply (Hc j k cj ck p).
Qed.

Lemma exclusive_add_player cfg name d d' :
  sound cfg d → exclusive d → add_player cfg name d = Done d' → exclusive d'.
Proof.
  intros Hs [Hr Hq Hf Hw Hc]. unfold add_player.
  repeat case_decide; intros Heq; simplify_eq.
  destruct H0 as [_ Hnew].
  split; simpl; try done.
  - apply NoDup_app. split_and!; [done| |apply NoDup_singleton].
    intros p Hp ->%list_elem_of_singleton. done.
  - apply NoDup_app. split_and!; [done| |apply NoDup_singleton].
    intros p Hp ->%list_elem_of_singleton. by apply Hnew, (sound_queue cfg d).
  - intros j c p Hj Hp [Hin| ->%list_elem_of_singleton]%elem_of_app.
    + by apply (Hw j c p).
    + by apply Hnew, (sound_courts cfg d Hs j c).
Qed.

Lemma exclusive_initialize_queue shuffled d d' :
  exclusive d → shuffled ≡ₚ players d → Forall (λ c, c = []) (courts d) →
  initialize_queue shuffled d = Done d' → exclusive d'.
Proof.
  intros [Hr Hq Hf Hw Hc] Hperm Hidle. unfold initialize_queue.
  destruct (players d) eqn:Hp; intros Heq; simplify_eq.
  rewrite Forall_lookup in Hidle.
  split; simpl; try done.
  - by rewrite Hperm.
  - intros j c p Hj Hin. rewrite (Hidle j c Hj) in Hin.
    by apply elem_of_nil in Hin.
Qed.

Lemma exclusive_assign_one i d :
  exclusive d → (4 ≤ length (queue d))%nat → (i < length (courts d))%nat →
  exclusive (assign_one i d).
Proof.
  intros Hd Hlen Hi.
  destruct (lookup_lt_is_Some_2 (courts d) i Hi) as [crt Hcrt].
  pose proof (excl_queue d Hd) as Hnd.
  rewrite <- (take_drop 4 (queue d)) in Hnd.
  apply NoDup_app in Hnd as (Htake & Hdisj & Hdrop).
  apply (exclusive_replace d i crt); try done.
  - intros p [Hp|Hp]; left.
    + by eapply elem_of_drop_list.
    + by eapply elem_of_take_list.
Qed.

Lemma exclusive_process_court_result cfg i team d d' :
  sound cfg d → exclusive d →
  process_court_result i team d = Done d' → exclusive d'.
Proof.
  intros Hs Hd Heq.
  destruct (courts d !! i) as [crt|] eqn:Hi;
    [|by rewrite process_court_result_range in Heq].
  destruct (decide (length crt < 4)%nat) as [Hshort|Hfull];
    [by rewrite (process_court_result_short _ _ _ crt) in Heq|].
  destruct (process_court_result_done i team d crt Hi ltac:(lia))
    as (stay & rot & st' & nc & q' & _ & Hre & Hdone & Hperm & _).
  rewrite Hdone in Heq. injection Heq as <-.
  destruct (reseed_spec _ _ _ _ Hre) as (taken & Hsplit & Hnc & Hnc4).
  pose proof (sound_size cfg d Hs i crt Hi) as Hle.
  (* everybody involved, each listed once *)
  assert (queue d ++ crt ≡ₚ stay ++ taken ++ q' ++ losers_of team crt) as Hall.
  { transitivity (queue d ++ winners_of team crt ++ losers_of team crt);
      [by rewrite winners_losers_court|].
    rewrite <- Hperm, (app_assoc taken), <- Hsplit, <- !app_assoc.
    apply Permutation_app_swap_app. }
  assert (NoDup (stay ++ taken ++ q' ++ losers_of team crt)) as Hnd.
  { rewrite <- Hall. apply NoDup_app. split_and!.
    - by apply excl_queue.
    - intros p Hq Hc. by apply (excl_waiting d Hd i crt p).
    - apply (excl_full d Hd i crt); [done|lia]. }
  rewrite app_assoc in Hnd.
  apply NoDup_app in Hnd as (Hnd1 & Hdisj & Hnd2).
  apply (exclusive_replace d i crt); try done.
  - intros H4. rewrite (Hnc4 H4). done.
  - intros p Hp. apply Hdisj, elem_of_app. by apply Hnc.
  - intros p Hp. apply elem_of_app. rewrite Hall.
    rewrite (app_assoc stay). apply elem_of_app.
    destruct Hp as [Hp|Hp]; [by right|].
    left. apply elem_of_app. by apply Hnc.
Qed.

Lemma exclusive_press cfg d op :
  sound cfg d → exclusive d → shuffle_idle d op → exclusive (press cfg d op).
Proof.
  intros Hs Hd Hok. apply press_preserves; [done|]. intros d' Heq.
  destruct op as [name|shuffled| |i team|]; simpl in *.
  - by eapply exclusive_add_player.
  - destruct Hok. by eapply exclusive_initialize_queue.
  - eapply (assign_from_preserves exclusive); [|exact Hd|exact Heq].
    intros. by apply exclusive_assign_one.
  - by eapply exclusive_process_court_result.
  - unfold reset_all_data in Heq. injection Heq as <-. apply exclusive_default.
Qed.

Lemma reachable_idle_exclusive cfg d : reachable_idle cfg d → exclusive d.
Proof.
  induction 1 as [|d op Hd IH Hop]; [apply exclusive_default|].
  apply exclusive_press; try done.
  by apply reachable_sound, reachable_idle_reachable.
Qed.

Lemma four_on_court_reachable : reachable_idle default_config four_on_court.
Proof. apply reach_run; [constructor|check_presses]. Qed.

Lemma three_waiting_reachable : reachable_idle default_config three_waiting.
Proof. apply reach_run; [constructor|check_presses]. Qed.

(** * The claims about reachable states *)

(** C1, as stated, fails: after add, add, add, add, assign, shuffle the four
    players stand on court 0 and wait in the queue at the same time. *)
Lemma queue_and_courts_overlap_after_reshuffle :
  reachable default_config reshuffled_mid_game
  ∧ queue reshuffled_mid_game = ["C"; "A"; "D"; "B"]
  ∧ courts reshuffled_mid_game = [["A"; "B"; "C"; "D"]; []; []]
  ∧ ¬ (∀ p, p ∈ queue reshuffled_mid_game → p ∉ on_court reshuffled_mid_game).
Proof.
  split_and!.
  - apply reach_run; [constructor|check_presses].
  - by vm_compute.
  - by vm_compute.
  - intros H. apply (H "A"); vm_compute; set_solver.
Qed.

(** C1, amended. In every reachable state everybody in the queue and
    everybody on a court is on the roster; and in every state reached by
    presses among which "Initialize Queue" is only used while all courts are
    empty, nobody in the queue stands on a court. *)
Theorem queue_and_courts_within_roster_and_disjoint_when_idle cfg d :
  reachable cfg d →
  ((∀ p, p ∈ queue d → p ∈ players d)
   ∧ (∀ p, p ∈ on_court d → p ∈ players d))
  ∧ (reachable_idle cfg d → ∀ p, p ∈ queue d → p ∉ on_court d).
Proof.
  intros Hr. pose proof (reachable_sound cfg d Hr) as Hs. split_and!.
  - apply (sound_queue cfg d Hs).
  - intros p (j & c & Hj & Hp)%elem_of_on_court.
    by apply (sound_courts cfg d Hs j c).
  - intros Hi p Hq (j & c & Hj & Hp)%elem_of_on_court.
    by apply (excl_waiting d (reachable_idle_exclusive cfg d Hi) j c p).
Qed.

Lemma queue_and_courts_within_roster_and_disjoint_when_idle_witness :
  ((∀ p, p ∈ queue three_waiting → p ∈ players three_waiting)
   ∧ (∀ p, p ∈ on_court three_waiting → p ∈ players three_waiting))
  ∧ (∀ p, p ∈ queue three_waiting → p ∉ on_court three_waiting).
Proof.
  destruct (queue_and_courts_within_roster_and_disjoint_when_idle
              default_config three_waiting) as [Hroster Hdisj].
  - apply reachable_idle_reachable, three_waiting_reachable.
  - split; [exact Hroster|]. apply Hdisj, three_waiting_reachable.
Defined.

(** Whatever [assign_all_courts] saves, each court is as it was or holds
    four players. *)
Lemma assign_from_court_sizes n i d d' :
  assign_from i n d = Done d' →
  ∀ j c', courts d' !! j = Some c' →
    length c' = 4%nat ∨ courts d !! j = Some c'.
Proof.
  intros Heq.
  apply (assign_from_preserves
           (λ d1, ∀ j c', courts d1 !! j = Some c' →
                    length c' = 4%nat ∨ courts d !! j = Some c') n i d d');
    [|by right|done].
  intros i1 d1 IH Hq Hi j c' Hj. simpl in Hj.
  apply list_lookup_insert_Some in Hj as [(<- & <- & _)|[_ Hj]]; [|by apply IH].
  left. rewrite length_take. lia.
Qed.

(** One press, seen from one court. *)
Lemma press_court_sizes cfg d op j c' :
  courts (press cfg d op) !! j = Some c' →
  length c' = 0%nat ∨ length c' = 4%nat ∨ courts d !! j = Some c'
  ∨ ∃ team, op = SubmitResult j team ∧ short_reseed d j team c'.
Proof.
  unfold press. destruct (exec cfg op d) as [d'| | |] eqn:He; simpl; auto.
  intros Hj. destruct op as [name|shuffled| |i team|]; simpl in He.
  - unfold add_player in He. repeat case_decide; simplify_eq/=. auto.
  - unfold initialize_queue in He. destruct (players d); simplify_eq/=. auto.
  - destruct (assign_from_court_sizes _ _ _ _ He j c' Hj); auto.
  - destruct (courts d !! i) as [crt|] eqn:Hi;
      [|by rewrite process_court_result_range in He].
    destruct (decide (length crt < 4)%nat) as [Hshort|Hfull];
      [by rewrite (process_court_result_short _ _ _ crt) in He|].
    destruct (process_court_result_done i team d crt Hi ltac:(lia))
      as (stay & rot & st' & nc & q' & Hloop & Hre & Hdone & _).
    rewrite Hdone in He. injection He as <-. simpl in Hj.
    apply list_lookup_insert_Some in Hj as [(<- & <- & _)|[_ Hj]]; [|auto].
    unfold reseed in Hre.
    destruct stay as [|s0 [|s1 [|s2 stay]]]; simplify_eq/=; auto.
    case_decide as Hq.
    + destruct (queue d ++ rot) as [|a [|b q]]; simplify_eq/=. auto.
    + simplify_eq/=. do 3 right. exists team. split; [done|].
      exists crt, s0, s1, st', (queue d ++ rot). split_and!; try done; try (simpl; lia).
      by small_membership.
  - unfold reset_all_data in He. injection He as <-. simpl in Hj.
    apply lookup_replicate in Hj as [-> _]. auto.
Qed.

(** C2, as stated, fails: add, add, add, add, assign, then Team 1 wins on
    court 0 with nobody waiting; court 0 is left with three entries. *)
Lemma court_left_partial_after_result :
  reachable default_config
    (press default_config four_on_court (SubmitResult 0 "Team 1"))
  ∧ ∃ c, courts (press default_config four_on_court (SubmitResult 0 "Team 1"))
           !! 0%nat = Some c
         ∧ length c = 3%nat.
Proof.
  split.
  - apply reach_press; [|exact I].
    apply reachable_idle_reachable, four_on_court_reachable.
  - eexists. split; by vm_compute.
Qed.

(** C2, amended. In every reachable state no court lists more than four
    players, and after any press a court is empty, or holds exactly four, or
    is as it was before the press, or was reseeded by [process_court_result]
    with both winners staying and fewer than three players waiting, in which
    case it holds fewer than four entries, all of them staying winners. *)
Theorem courts_empty_or_full_except_short_reseed cfg d :
  reachable cfg d →
  (∀ j c, courts d !! j = Some c → (length c ≤ 4)%nat)
  ∧ (∀ op j c', courts (press cfg d op) !! j = Some c' →
       length c' = 0%nat ∨ length c' = 4%nat ∨ courts d !! j = Some c'
       ∨ ∃ team, op = SubmitResult j team ∧ short_reseed d j team c').
Proof.
  intros Hr. split.
  - apply (sound_size cfg d (reachable_sound cfg d Hr)).
  - intros op j c'. apply press_court_sizes.
Qed.

Lemma courts_empty_or_full_except_short_reseed_witness :
  (∀ j c, courts four_on_court !! j = Some c → (length c ≤ 4)%nat)
  ∧ (∀ op j c',
       courts (press default_config four_on_court op) !! j = Some c' →
       length c' = 0%nat ∨ length c' = 4%nat
       ∨ courts four_on_court !! j = Some c'
       ∨ ∃ team, op = SubmitResult j team
                 ∧ short_reseed four_on_court j team c').
Proof.
  apply (courts_empty_or_full_except_short_reseed default_config four_on_court).
  apply reachable_idle_reachable, four_on_court_reachable.
Defined.

(** ** The streak cap *)

(** On a court that lists four different players, a winner leaves the two
    streak loops with his old streak, read with default 0, plus one. *)
Lemma update_streaks_winner team crt st w :
  NoDup crt → w ∈ winners_of team crt →
  update_streaks (winners_of team crt) (losers_of team crt) st !! w
  = Some (default 0 (st !! w) + 1).
Proof.
  intros Hnd Hw. rewrite <- (winners_losers_court team crt) in Hnd.
  apply NoDup_app in Hnd as (Hws & Hdisj & _).
  unfold update_streaks. rewrite set_streaks_notin by auto.
  by apply bump_streaks_once.
Qed.

Lemma winners_of_four team crt :
  length crt = 4%nat → length (winners_of team crt) = 2%nat.
Proof.
  intros H4. unfold winners_of.
  destruct (team1 team); [rewrite length_take|rewrite length_drop]; lia.
Qed.








(** ** The match history *)

Lemma process_court_result_history i team d d' :
  process_court_result i team d = Done d' →
  ∃ crt,
    courts d !! i = Some crt ∧ (4 ≤ length crt)%nat
    ∧ history d' = history d ++
        [ {| court := Z.of_nat i + 1;
             winners := winners_of team crt;
             losers := losers_of team crt |} ].
Proof.
  intros Heq.
  destruct (courts d !! i) as [crt|] eqn:Hi;
    [|by rewrite process_court_result_range in Heq].
  destruct (decide (length crt < 4)%nat) as [Hshort|Hfull];
    [by rewrite (process_court_result_short _ _ _ crt) in Heq|].
  destruct (process_court_result_done i team d crt Hi ltac:(lia))
    as (stay & rot & st' & nc & q' & _ & _ & Hdone & _).
  rewrite Hdone in Heq. injection Heq as <-.
  exists crt. split_and!; [done|lia|done].
Qed.

(** C7, as stated, fails: the record appended for a result on court index 0
    carries the court number 1, not the index 0. *)
Lemma history_record_not_court_index :
  ∃ d',
    process_court_result 0 "Team 1" four_on_court = Done d'
    ∧ history d' = [ {| court := 1; winners := ["A"; "B"];
                        losers := ["C"; "D"] |} ]
    ∧ history d' ≠ history four_on_court ++
        [ {| court := 0; winners := ["A"; "B"]; losers := ["C"; "D"] |} ].
Proof.
  eexists. split; [by vm_compute|]. split; [by vm_compute|].
  by vm_compute.
Qed.

(** C7, amended. In a reachable state, every call of [process_court_result]
    that saves appends to the history exactly one record: the court number
    [court_index + 1], the two winners in their order on the court and the
    two losers in their order on the court; the history grows by one entry
    and every earlier entry stays where and what it was. *)
Theorem process_appends_one_record cfg d i team d' :
  reachable cfg d →
  process_court_result i team d = Done d' →
  ∃ a b c e,
    courts d !! i = Some [a; b; c; e]
    ∧ history d' = history d ++
        [ {| court := Z.of_nat i + 1;
             winners := if team1 team then [a; b] else [c; e];
             losers := if team1 team then [c; e] else [a; b] |} ]
    ∧ length (history d') = S (length (history d))
    ∧ ∀ k m, history d !! k = Some m → history d' !! k = Some m.
Proof.
  intros Hr Heq.
  destruct (process_court_result_history i team d d' Heq)
    as (crt & Hi & H4 & Hh).
  pose proof (sound_size cfg d (reachable_sound cfg d Hr) i crt Hi) as Hle.
  destruct (four_of_length crt ltac:(lia)) as (a & b & c & e & ->).
  exists a, b, c, e. split_and!.
  - done.
  - rewrite Hh. unfold winners_of, losers_of. by destruct (team1 team).
  - rewrite Hh, length_app. simpl. lia.
  - intros k m Hk. rewrite Hh. by apply lookup_app_l_Some.
Qed.

Lemma process_appends_one_record_witness :
  ∃ a b c e,
    courts three_waiting !! 0%nat = Some [a; b; c; e]
    ∧ history (press default_config three_waiting (SubmitResult 0 "Team 2"))
      = history three_waiting ++
        [ {| court := Z.of_nat 0 + 1;
             winners := if team1 "Team 2" then [a; b] else [c; e];
             losers := if team1 "Team 2" then [c; e] else [a; b] |} ]
    ∧ length (history (press default_config three_waiting
                         (SubmitResult 0 "Team 2")))
      = S (length (history three_waiting))
    ∧ ∀ k m, history three_waiting !! k = Some m →
             history (press default_config three_waiting
                        (SubmitResult 0 "Team 2")) !! k = Some m.
Proof.
  apply (process_appends_one_record default_config three_waiting 0 "Team 2").
  - apply reachable_idle_reachable, three_waiting_reachable.
  - by vm_compute.
Defined.

(** ** The guard of process_court_result *)

(** C8. In a reachable state, [process_court_result] on a court of the board
    warns "Not enough players on this court." exactly when that court does
    not hold four players; a call that warns returns with the data as it
    found it, and the data the next run loads is unchanged too. *)
Theorem process_warns_iff_court_not_full cfg d i team crt :
  reachable cfg d → courts d !! i = Some crt →
  ((∃ d1, process_court_result i team d
          = Warned "Not enough players on this court." d1)
   ↔ length crt ≠ 4%nat)
  ∧ (∀ msg d1, process_court_result i team d = Warned msg d1 →
       msg = "Not enough players on this court."
       ∧ d1 = d ∧ press cfg d (SubmitResult i team) = d).
Proof.
  intros Hr Hi.
  pose proof (sound_size cfg d (reachable_sound cfg d Hr) i crt Hi) as Hle.
  destruct (decide (length crt < 4)%nat) as [Hshort|Hfull].
  - rewrite (process_court_result_short i team d crt Hi Hshort). split.
    + split; [intros _; lia|]. intros _. by exists d.
    + intros msg d1 [= <- <-]. split_and!; try done.
      unfold press. simpl.
      by rewrite (process_court_result_short i team d crt Hi Hshort).
  - destruct (process_court_result_done i team d crt Hi ltac:(lia))
      as (stay & rot & st' & nc & q' & _ & _ & Hdone & _).
    rewrite Hdone. split.
    + split; [by intros [d1 ?]|lia].
    + by intros msg d1 ?.
Qed.

Lemma process_warns_iff_court_not_full_witness :
  ((∃ d1, process_court_result 1 "Team 1" four_on_court
          = Warned "Not enough players on this court." d1)
   ↔ length (@nil string) ≠ 4%nat)
  ∧ (∀ msg d1, process_court_result 1 "Team 1" four_on_court = Warned msg d1 →
       msg = "Not enough players on this court."
       ∧ d1 = four_on_court
       ∧ press default_config four_on_court (SubmitResult 1 "Team 1")
         = four_on_court).
Proof.
  apply (process_warns_iff_court_not_full default_config four_on_court 1
           "Team 1" []).
  - apply reachable_idle_reachable, four_on_court_reachable.
  - by vm_compute.
Defined.

(** ** Courts that assign_all_courts overwrites *)

(** C10, as stated, fails: P3 stood on court 0, which [assign_all_courts]
    overwrites, and was not waiting in the queue; afterwards P3 is still on
    court 1, which the call did not touch. *)
Lemma overwritten_player_still_on_other_court :
  reachable default_config double_booked
  ∧ queue double_booked = ["P9"; "P10"; "P11"; "P12"]
  ∧ courts double_booked
    = [["P3"; "P8"; "P5"; "P2"]; ["P1"; "P7"; "P3"; "P4"]; []]
  ∧ ∃ d',
      assign_all_courts default_config double_booked = Done d'
      ∧ courts d' = [["P9"; "P10"; "P11"; "P12"]; ["P1"; "P7"; "P3"; "P4"]; []]
      ∧ ("P3" ∉ queue double_booked)
      ∧ ¬ (("P3" ∉ queue d') ∧ ("P3" ∉ on_court d')).
Proof.
  split_and!.
  - apply reach_run; [constructor|check_presses].
  - by vm_compute.
  - by vm_compute.
  - eexists. split_and!.
    + by vm_compute.
    + by vm_compute.
    + compute_done.
    + intros [_ Hoff]. apply Hoff. compute_done.
Qed.

(** C10, amended. On a board with one slot per configured court,
    [assign_all_courts] overwrites the first [m] courts, [m] being the number
    of whole foursomes waiting, capped by the court count, and leaves the
    queue without its first [4 * m] players: nobody is appended.  A player
    who stood on an overwritten court and was not waiting is afterwards not
    in the queue and on none of the overwritten courts; he can only be found
    on a court that the call left as it was.  When nobody stands on two
    courts beforehand, he is on no court at all. *)
Theorem assign_all_courts_drops_occupants cfg d :
  length (courts d) = num_courts cfg →
  ∃ m d',
    assign_all_courts cfg d = Done d'
    ∧ (m ≤ num_courts cfg)%nat ∧ (4 * m ≤ length (queue d))%nat
    ∧ (m = num_courts cfg ∨ length (queue d) < 4 * m + 4)%nat
    ∧ queue d' = drop (4 * m) (queue d)
    ∧ (∀ i crt p,
         (i < m)%nat → courts d !! i = Some crt → p ∈ crt → p ∉ queue d →
         (p ∉ queue d')
         ∧ (∀ j c, courts d' !! j = Some c → p ∈ c →
              (m ≤ j)%nat ∧ courts d !! j = Some c))
    ∧ (exclusive d →
       ∀ i crt p, (i < m)%nat → courts d !! i = Some crt → p ∈ crt →
         (p ∉ queue d') ∧ (p ∉ on_court d')).
Proof.
  intros Hb. unfold assign_all_courts.
  destruct (assign_from_spec (num_courts cfg) 0 d)
    as (m & d' & Hm & H4 & Hstop & Heq & Hp & Hh & Hqu & Hst & Hcl & Hin & Hout);
    [lia|].
  assert (∀ i crt p,
            (i < m)%nat → courts d !! i = Some crt → p ∈ crt → p ∉ queue d →
            (p ∉ queue d')
            ∧ (∀ j c, courts d' !! j = Some c → p ∈ c →
                 (m ≤ j)%nat ∧ courts d !! j = Some c)) as Hdrop.
  { intros i crt p Hi Hcrt Hp' Hnq. split.
    - rewrite Hqu. intros Hq. by apply Hnq, (elem_of_drop_list (4 * m)).
    - intros j c Hj Hpc. destruct (decide (j < m)%nat) as [Hlt|Hge].
      + rewrite Hin in Hj by lia. injection Hj as <-.
        exfalso. apply Hnq. by eapply elem_of_drop_list, elem_of_take_list.
      + rewrite Hout in Hj by lia. split; [lia|done]. }
  exists m, d'. split_and!; try done.
  intros Hx i crt p Hi Hcrt Hp'.
  assert (p ∉ queue d) as Hnq by by apply (excl_waiting d Hx i crt).
  destruct (Hdrop i crt p Hi Hcrt Hp' Hnq) as [Hq' Hc']. split; [done|].
  intros (j & c & Hj & Hpc)%elem_of_on_court.
  destruct (Hc' j c Hj Hpc) as [Hge Hold].
  apply (excl_courts d Hx i j crt c p); [lia|done..].
Qed.

Lemma assign_all_courts_drops_occupants_witness :
  ∃ m d',
    assign_all_courts default_config double_booked = Done d'
    ∧ (m ≤ 3)%nat ∧ (4 * m ≤ 4)%nat ∧ (m = 3 ∨ 4 < 4 * m + 4)%nat
    ∧ queue d' = drop (4 * m) ["P9"; "P10"; "P11"; "P12"].
Proof.
  destruct (assign_all_courts_drops_occupants default_config double_booked)
    as (m & d' & Hdone & Hm & H4 & Hstop & Hqu & _).
  - by vm_compute.
  - exists m, d'. split_and!; done.
Defined.

Lemma assign_all_courts_fills_board_witness :
  ∃ d',
    assign_all_courts (mkConfig 20 2) nine_waiting = Done d'
    ∧ queue d' = drop 8 (queue nine_waiting)
    ∧ queue nine_waiting = concat (courts d') ++ queue d'.
Proof.
  destruct (assign_all_courts_fills_board (mkConfig 20 2) nine_waiting)
    as (d' & Hdone & Hqu & Hcat & _).
  - by vm_compute.
  - vm_compute. lia.
  - exists d'. split_and!; done.
Defined.

(** * Further properties of the operations *)

(** ** The roster *)

Lemma assign_from_keeps n i d d' :
  assign_from i n d = Done d' →
  players d' = players d ∧ history d' = history d.
Proof.
  intros Heq.
  apply (assign_from_preserves
           (λ d1, players d1 = players d ∧ history d1 = history d) n i d d');
    [|done|done].
  intros i1 d1 [Hp Hh] _ _. done.
Qed.

Lemma process_court_result_keeps_players i team d d' :
  process_court_result i team d = Done d' → players d' = players d.
Proof.
  intros Heq.
  destruct (courts d !! i) as [crt|] eqn:Hi;
    [|by rewrite process_court_result_range in Heq].
  destruct (decide (length crt < 4)%nat) as [Hshort|Hfull];
    [by rewrite (process_court_result_short _ _ _ crt) in Heq|].
  destruct (process_court_result_done i team d crt Hi ltac:(lia))
    as (stay & rot & st' & nc & q' & _ & _ & Hdone & _).
  rewrite Hdone in Heq. by injection Heq as <-.
Qed.

(** What a saved operation has done to the roster. *)
Lemma exec_roster cfg op d d' :
  exec cfg op d = Done d' →
  players d' = players d
  ∨ (∃ name,
       op = AddPlayer name ∧ name ≠ "" ∧ (name ∉ players d)
       ∧ (length (players d) < max_players cfg)%nat
       ∧ players d' = players d ++ [name]
       ∧ queue d' = queue d ++ [name])
  ∨ (op = ResetEverything ∧ players d' = []).
Proof.
  destruct op as [name|shuffled| |i team|]; simpl; intros He.
  - unfold add_player in He. repeat case_decide; simplify_eq/=.
    right; left. exists name. destruct H0. split_and!; try done. lia.
  - left. unfold initialize_queue in He. by destruct (players d); simplify_eq/=.
  - left. by apply (assign_from_keeps _ _ _ _ He).
  - left. by eapply process_court_result_keeps_players.
  - right; right. unfold reset_all_data in He. by simplify_eq/=.
Qed.

(** Capacity, distinctness and non-emptiness of names pass through a press. *)
Lemma roster_ok_press cfg d op :
  (length (players d) ≤ max_players cfg)%nat ∧ NoDup (players d)
    ∧ "" ∉ players d →
  (length (players (press cfg d op)) ≤ max_players cfg)%nat
    ∧ NoDup (players (press cfg d op))
    ∧ "" ∉ players (press cfg d op).
Proof.
  intros Hd. apply (press_preserves
    (λ d, (length (players d) ≤ max_players cfg)%nat ∧ NoDup (players d)
          ∧ "" ∉ players d)); [done|].
  intros d' He. destruct Hd as (Hcap & Hnd & Hne).
  destruct (exec_roster cfg op d d' He)
    as [->|[(name & _ & Hname & Hnew & Hroom & -> & _)|[_ ->]]].
  - done.
  - split_and!.
    + rewrite length_app. simpl. lia.
    + apply NoDup_app. split_and!; [done| |apply NoDup_singleton].
      by intros p Hp ->%list_elem_of_singleton.
    + intros [?|Heq%list_elem_of_singleton]%elem_of_app; [done|].
      by apply Hname.
  - simpl. split_and!; [lia|apply NoDup_nil_2|by intros ?%elem_of_nil].
Qed.

Lemma reachable_roster_distinct cfg d : reachable cfg d → NoDup (players d).
Proof.
  intros Hr.
  assert ((length (players d) ≤ max_players cfg)%nat ∧ NoDup (players d)
          ∧ "" ∉ players d) as (_ & Hnd & _); [|done].
  induction Hr as [|d op _ IH _]; [|by apply roster_ok_press].
  simpl. split_and!; [lia|apply NoDup_nil_2|by intros ?%elem_of_nil].
Qed.

(** X1. One press leaves the roster as it was, or appends one new, non-empty
    name to it (and to the tail of the queue) while the roster is below
    [max_players], or is the reset, which empties it. *)
Theorem roster_changes_only_by_add_or_reset cfg d op :
  players (press cfg d op) = players d
  ∨ (∃ name,
       op = AddPlayer name ∧ name ≠ "" ∧ (name ∉ players d)
       ∧ (length (players d) < max_players cfg)%nat
       ∧ players (press cfg d op) = players d ++ [name]
       ∧ queue (press cfg d op) = queue d ++ [name])
  ∨ (op = ResetEverything ∧ players (press cfg d op) = []).
Proof.
  unfold press. destruct (exec cfg op d) as [d'| | |] eqn:He; simpl.
  - by apply (exec_roster cfg op d d').
  - by left.
  - by left.
  - by left.
Qed.

(** With an unchanged configuration the roster never grows beyond
    [max_players]. *)
Lemma reachable_roster_within_capacity cfg d :
  reachable cfg d →
  (length (players d) ≤ max_players cfg)%nat
  ∧ NoDup (players d)
  ∧ "" ∉ players d.
Proof.
  induction 1 as [|d op _ IH _].
  - simpl. split_and!; [lia|apply NoDup_nil_2|by intros ?%elem_of_nil].
  - by apply roster_ok_press.
Qed.

(** X3. Pressing "Add Player" twice with the same name leaves the data
    exactly as pressing it once: the second press is refused as a
    duplicate, or by the capacity warning. *)
Theorem add_player_twice_is_once cfg d name :
  press cfg (press cfg d (AddPlayer name)) (AddPlayer name)
  = press cfg d (AddPlayer name).
Proof.
  unfold press. simpl.
  destruct (decide (max_players cfg ≤ length (players d))%nat) as [Hfull|Hroom].
  - assert (add_player cfg name d = Warned "Maximum player limit reached." d)
      as E by (unfold add_player; by case_decide).
    rewrite E. simpl. by rewrite E.
  - destruct (decide (name ≠ "" ∧ name ∉ players d)) as [Hnew|Hold].
    + assert (add_player cfg name d
              = Done {| players := players d ++ [name];
                        queue := queue d ++ [name];
                        courts := courts d; streaks := streaks d;
                        history := history d |}) as E.
      { unfold add_player. case_decide; [lia|]. by case_decide. }
      rewrite E. simpl. unfold add_player. simpl.
      case_decide; [done|]. case_decide as Hdup; [|done].
      destruct Hdup as [_ Hdup]. exfalso. apply Hdup.
      apply elem_of_app. right. apply list_elem_of_here.
    + assert (add_player cfg name d = Ignored d) as E.
      { unfold add_player. case_decide; [lia|]. by case_decide. }
      rewrite E. simpl. by rewrite E.
Qed.

(** ** initialize_queue *)

(** X4. In a reachable state, "Initialize Queue" with an empty roster only
    warns and changes nothing; otherwise it saves a queue that lists every
    roster player exactly once, whatever the queue held before, and leaves
    courts, streaks and history alone, so that everybody who stands on a
    court is from then on waiting in the queue as well. *)
Theorem initialize_queue_lists_roster_once cfg d shuffled :
  reachable cfg d → shuffled ≡ₚ players d →
  (players d = [] →
     initialize_queue shuffled d = Warned "Add players first." d)
  ∧ (players d ≠ [] →
     ∃ d',
       initialize_queue shuffled d = Done d'
       ∧ NoDup (queue d')
       ∧ (∀ p, p ∈ queue d' ↔ p ∈ players d)
       ∧ length (queue d') = length (players d)
       ∧ players d' = players d
       ∧ courts d' = courts d
       ∧ streaks d' = streaks d
       ∧ history d' = history d
       ∧ ∀ p, p ∈ on_court d → p ∈ queue d').
Proof.
  intros Hr Hperm.
  pose proof (reachable_roster_distinct cfg d Hr) as Hnd.
  pose proof (reachable_sound cfg d Hr) as Hs.
  unfold initialize_queue. split.
  - by intros ->.
  - intros Hne. destruct (players d) as [|x l] eqn:Hp; [done|].
    eexists. split; [done|]. simpl. split_and!; try done.
    + by rewrite Hperm.
    + intros p. by rewrite Hperm.
    + by rewrite Hperm.
    + intros p (j & c & Hj & Hin)%elem_of_on_court.
      rewrite Hperm, <- Hp. by apply (sound_courts cfg d Hs j c).
Qed.

Lemma initialize_queue_lists_roster_once_witness :
  ∃ d',
    initialize_queue ["C"; "A"; "D"; "B"] four_on_court = Done d'
    ∧ NoDup (queue d')
    ∧ (∀ p, p ∈ queue d' ↔ p ∈ players four_on_court)
    ∧ length (queue d') = length (players four_on_court)
    ∧ players d' = players four_on_court
    ∧ courts d' = courts four_on_court
    ∧ streaks d' = streaks four_on_court
    ∧ history d' = history four_on_court
    ∧ ∀ p, p ∈ on_court four_on_court → p ∈ queue d'.
Proof.
  apply (initialize_queue_lists_roster_once default_config four_on_court
           ["C"; "A"; "D"; "B"]).
  - apply reachable_idle_reachable, four_on_court_reachable.
  - compute_done.
  - by vm_compute.
Defined.

(** ** assign_all_courts, in general *)

Lemma assign_from_short_queue i n d :
  (length (queue d) < 4)%nat → assign_from i n d = Done d.
Proof. intros Hq. destruct n; [done|]. cbn [assign_from]. by case_decide. Qed.

(** X5. On a board with one slot per configured court, [assign_all_courts]
    always saves.  It fills the first [m] courts, [m] being the number of
    whole foursomes waiting, capped by the number of courts; court [j < m]
    receives the [j]-th foursome of the queue, the courts from [m] on keep
    what they held, the players placed are exactly the first [4 * m] of the
    queue and get streak 1, everybody else's streak, the roster and the
    history are untouched. *)
Theorem assign_all_courts_fills_what_it_can cfg d :
  length (courts d) = num_courts cfg →
  ∃ d',
    let m := (num_courts cfg `min` (length (queue d) `div` 4))%nat in
    assign_all_courts cfg d = Done d'
    ∧ length (courts d') = num_courts cfg
    ∧ (∀ j, (j < m)%nat →
         courts d' !! j = Some (take 4 (drop (4 * j) (queue d)))
         ∧ length (take 4 (drop (4 * j) (queue d))) = 4%nat)
    ∧ (∀ j, (m ≤ j)%nat → courts d' !! j = courts d !! j)
    ∧ queue d = concat (take m (courts d')) ++ queue d'
    ∧ (length (queue d') < 4 ∨ m = num_courts cfg)%nat
    ∧ (∀ p, p ∈ concat (take m (courts d')) → streaks d' !! p = Some 1)
    ∧ (∀ p, p ∉ concat (take m (courts d')) → streaks d' !! p = streaks d !! p)
    ∧ players d' = players d
    ∧ history d' = history d.
Proof.
  intros Hb. unfold assign_all_courts.
  destruct (assign_from_spec (num_courts cfg) 0 d)
    as (m & d' & Hm & H4 & Hstop & Heq & Hp & Hh & Hqu & Hst & Hcl & Hin & Hout);
    [lia|].
  assert (m = (num_courts cfg `min` (length (queue d) `div` 4))%nat) as Hmin.
  { assert (m ≤ length (queue d) `div` 4)%nat
      by (apply Nat.div_le_lower_bound; lia).
    destruct Hstop as [->|Hlt]; [lia|].
    assert (length (queue d) `div` 4 < m + 1)%nat
      by (apply Nat.Div0.div_lt_upper_bound; lia).
    lia. }
  assert (concat (take m (courts d')) = take (4 * m) (queue d)) as Hcat.
  { apply concat_foursomes.
    - rewrite length_take. lia.
    - intros j Hj. rewrite lookup_take_lt by done. rewrite Hin by lia.
      do 3 f_equal. lia. }
  exists d'. cbn zeta. rewrite <- Hmin. split_and!; try done.
  - lia.
  - intros j Hj. split.
    + rewrite Hin by lia. do 3 f_equal. lia.
    + rewrite length_take, length_drop. lia.
  - intros j Hj. apply Hout. lia.
  - by rewrite Hcat, Hqu, take_drop.
  - rewrite Hqu, length_drop. lia.
  - intros p Hpin. rewrite Hst. apply set_streaks_in. by rewrite <- Hcat.
  - intros p Hpin. rewrite Hst. apply set_streaks_notin. by rewrite <- Hcat.
Qed.

Lemma assign_all_courts_fills_what_it_can_witness :
  ∃ d',
    let m := (num_courts default_config
              `min` (length (queue double_booked) `div` 4))%nat in
    assign_all_courts default_config double_booked = Done d'
    ∧ length (courts d') = num_courts default_config
    ∧ (∀ j, (j < m)%nat →
         courts d' !! j = Some (take 4 (drop (4 * j) (queue double_booked)))
         ∧ length (take 4 (drop (4 * j) (queue double_booked))) = 4%nat)
    ∧ (∀ j, (m ≤ j)%nat → courts d' !! j = courts double_booked !! j)
    ∧ queue double_booked = concat (take m (courts d')) ++ queue d'
    ∧ (length (queue d') < 4 ∨ m = num_courts default_config)%nat
    ∧ (∀ p, p ∈ concat (take m (courts d')) → streaks d' !! p = Some 1)
    ∧ (∀ p, p ∉ concat (take m (courts d')) →
         streaks d' !! p = streaks double_booked !! p)
    ∧ players d' = players double_booked
    ∧ history d' = history double_booked.
Proof.
  apply (assign_all_courts_fills_what_it_can default_config double_booked).
  by vm_compute.
Defined.

Lemma assign_from_off_board n i d :
  (i ≤ length (courts d) < i + n)%nat →
  (4 * (length (courts d) - i + 1) ≤ length (queue d))%nat →
  assign_from i n d = Raised IndexError.
Proof.
  revert i d. induction n as [|n IH]; intros i d Hi Hq; [lia|].
  cbn [assign_from]. case_decide; [lia|].
  rewrite pop_many_take_drop by lia.
  case_decide as Hlt; [|done].
  apply IH; cbn [courts queue]; rewrite ?length_insert, ?length_drop; lia.
Qed.

(** X6. When the board has fewer slots than [num_courts] and the queue holds
    a foursome for every slot and one more, [assign_all_courts] runs off the
    board: the assignment to the missing slot raises [IndexError] before
    anything is saved, so the data of the next run are the old ones. *)
Theorem assign_all_courts_off_board cfg d :
  (length (courts d) < num_courts cfg)%nat →
  (4 * (length (courts d) + 1) ≤ length (queue d))%nat →
  assign_all_courts cfg d = Raised IndexError
  ∧ press cfg d AssignAllCourts = d.
Proof.
  intros Hb Hq.
  assert (assign_all_courts cfg d = Raised IndexError) as E.
  { apply assign_from_off_board; lia. }
  split; [done|]. unfold press. simpl. by rewrite E.
Qed.

Lemma assign_all_courts_off_board_witness :
  assign_all_courts default_config
    {| players := ["A"; "B"; "C"; "D"]; queue := ["A"; "B"; "C"; "D"];
       courts := []; streaks := ∅; history := [] |}
  = Raised IndexError
  ∧ press default_config
      {| players := ["A"; "B"; "C"; "D"]; queue := ["A"; "B"; "C"; "D"];
         courts := []; streaks := ∅; history := [] |} AssignAllCourts
    = {| players := ["A"; "B"; "C"; "D"]; queue := ["A"; "B"; "C"; "D"];
         courts := []; streaks := ∅; history := [] |}.
Proof.
  apply (assign_all_courts_off_board default_config); vm_compute; lia.
Defined.

(** X7. On a board with one slot per configured court, pressing "Assign all
    courts" a second time changes nothing as long as the queue held fewer
    than [4 * num_courts + 4] players before the first press: the first
    press leaves fewer than four waiting. *)
Theorem assign_all_courts_twice_is_once cfg d :
  length (courts d) = num_courts cfg →
  (length (queue d) < 4 * num_courts cfg + 4)%nat →
  press cfg (press cfg d AssignAllCourts) AssignAllCourts
  = press cfg d AssignAllCourts.
Proof.
  intros Hb Hq.
  destruct (assign_from_spec (num_courts cfg) 0 d)
    as (m & d' & Hm & H4 & Hstop & Heq & _ & _ & Hqu & _);
    [lia|].
  fold (assign_all_courts cfg d) in Heq.
  unfold press. simpl. rewrite Heq. simpl.
  unfold assign_all_courts. rewrite assign_from_short_queue; [done|].
  rewrite Hqu, length_drop. lia.
Qed.

Lemma assign_all_courts_twice_is_once_witness :
  press default_config (press default_config three_waiting AssignAllCourts)
    AssignAllCourts
  = press default_config three_waiting AssignAllCourts.
Proof.
  apply (assign_all_courts_twice_is_once default_config three_waiting).
  - by vm_compute.
  - vm_compute. lia.
Defined.

(** ** What a press can and cannot do *)

(** X8. In a reachable state the only press that ends in an uncaught
    exception is a result submitted for a court index outside the board,
    and the exception is [IndexError]: the streak read of line 77 never
    meets an unknown player, no [pop(0)] meets an empty queue, and
    [assign_all_courts] never runs off the board. *)
Theorem press_raises_only_off_board cfg d op e :
  reachable cfg d →
  exec cfg op d = Raised e
  ↔ ∃ i team, op = SubmitResult i team ∧ (num_courts cfg ≤ i)%nat
              ∧ e = IndexError.
Proof.
  intros Hr. pose proof (reachable_sound cfg d Hr) as Hs.
  pose proof (sound_board cfg d Hs) as Hb. split.
  - destruct op as [name|shuffled| |i team|]; simpl.
    + unfold add_player. by repeat case_decide.
    + unfold initialize_queue. by destruct (players d).
    + unfold assign_all_courts.
      destruct (assign_from_spec (num_courts cfg) 0 d)
        as (m & d' & _ & _ & _ & Heq & _); [lia|]. by rewrite Heq.
    + destruct (courts d !! i) as [crt|] eqn:Hi.
      * destruct (decide (length crt < 4)%nat) as [Hshort|Hfull].
        -- by rewrite (process_court_result_short i team d crt).
        -- destruct (process_court_result_done i team d crt Hi ltac:(lia))
             as (stay & rot & st' & nc & q' & _ & _ & Hdone & _).
           by rewrite Hdone.
      * rewrite process_court_result_range by done. intros [= <-].
        exists i, team. split_and!; try done.
        apply lookup_ge_None in Hi. lia.
    + done.
  - intros (i & team & -> & Hi & ->). simpl.
    apply process_court_result_range, lookup_ge_None. lia.
Qed.

Lemma press_raises_only_off_board_witness :
  exec default_config (SubmitResult 3 "Team 1") four_on_court
  = Raised IndexError.
Proof.
  apply (press_raises_only_off_board default_config four_on_court
           (SubmitResult 3 "Team 1") IndexError).
  - apply reachable_idle_reachable, four_on_court_reachable.
  - exists 3%nat, "Team 1". split_and!; [done|vm_compute; lia|done].
Defined.

(** X9. Whenever [process_court_result] saves, both losers have streak 0
    afterwards and are the last two names of the queue, in their order on
    the court; this holds whatever else the call does with the winners. *)
Theorem losers_reset_and_queued_last i team d d' :
  process_court_result i team d = Done d' →
  ∃ crt waiting,
    courts d !! i = Some crt
    ∧ queue d' = waiting ++ losers_of team crt
    ∧ (∀ l, l ∈ losers_of team crt → streaks d' !! l = Some 0)
    ∧ (length crt = 4%nat → length (losers_of team crt) = 2%nat).
Proof.
  intros Heq.
  destruct (courts d !! i) as [crt|] eqn:Hi;
    [|by rewrite process_court_result_range in Heq].
  destruct (decide (length crt < 4)%nat) as [Hshort|Hfull];
    [by rewrite (process_court_result_short _ _ _ crt) in Heq|].
  destruct (process_court_result_done i team d crt Hi ltac:(lia))
    as (stay & rot & st' & nc & q' & _ & _ & Hdone & _ & H0 & Hsame & _).
  rewrite Hdone in Heq. injection Heq as <-.
  exists crt, q'. simpl. split_and!; try done.
  - intros l Hl. destruct (decide (l ∈ rot)) as [Hr|Hr]; [by apply H0|].
    rewrite Hsame by done. unfold update_streaks. by apply set_streaks_in.
  - intros H4. unfold losers_of.
    destruct (team1 team); [rewrite length_drop|rewrite length_take]; lia.
Qed.

Lemma losers_reset_and_queued_last_witness :
  ∃ crt waiting,
    courts three_waiting !! 0%nat = Some crt
    ∧ queue (press default_config three_waiting (SubmitResult 0 "Team 2"))
      = waiting ++ losers_of "Team 2" crt
    ∧ (∀ l, l ∈ losers_of "Team 2" crt →
         streaks (press default_config three_waiting
                    (SubmitResult 0 "Team 2")) !! l = Some 0)
    ∧ (length crt = 4%nat → length (losers_of "Team 2" crt) = 2%nat).
Proof.
  apply (losers_reset_and_queued_last 0 "Team 2" three_waiting).
  by vm_compute.
Defined.

Lemma process_court_result_keeps_history_prefix i team d d' :
  process_court_result i team d = Done d' →
  ∃ crt, courts d !! i = Some crt
    ∧ history d' = history d ++
        [ {| court := Z.of_nat i + 1; winners := winners_of team crt;
             losers := losers_of team crt |} ].
Proof.
  intros Heq. destruct (process_court_result_history i team d d' Heq)
    as (crt & Hi & _ & Hh). by exists crt.
Qed.

(** X10. One press leaves the history as it was, or is a saved result,
    which appends one record, or is the reset, which empties it: no other
    operation adds, removes or rewrites a match record. *)
Theorem history_changes_only_by_result_or_reset cfg d op :
  history (press cfg d op) = history d
  ∨ (∃ i team crt,
       op = SubmitResult i team ∧ courts d !! i = Some crt
       ∧ history (press cfg d op) = history d ++
           [ {| court := Z.of_nat i + 1; winners := winners_of team crt;
                losers := losers_of team crt |} ])
  ∨ (op = ResetEverything ∧ history (press cfg d op) = []).
Proof.
  unfold press. destruct op as [name|shuffled| |i team|]; simpl.
  - left. unfold add_player. by repeat case_decide.
  - left. unfold initialize_queue. by destruct (players d).
  - left. destruct (assign_all_courts cfg d) as [d'| | |] eqn:He; simpl; auto.
    by apply (assign_from_keeps _ _ _ _ He).
  - destruct (process_court_result i team d) as [d'| | |] eqn:He; simpl; auto.
    right; left.
    destruct (process_court_result_keeps_history_prefix i team d d' He)
      as (crt & Hi & Hh).
    by exists i, team, crt.
  - auto.
Qed.

(** ** Who is still in play after a result *)

(** X11. In a state reached without reshuffling over occupied courts, a
    saved result moves nobody in from outside: whoever waits or stands on
    that court afterwards waited or stood there before.  Unless exactly one
    winner stays, nobody is moved out either.  When exactly one winner
    stays (the other one has reached the cap), the court is left empty and
    that winner is dropped: he is neither appended to the queue nor on any
    court afterwards, while everybody else is waiting. *)
Theorem result_keeps_everyone_but_a_lone_winner cfg d i team crt :
  reachable_idle cfg d → courts d !! i = Some crt → (4 ≤ length crt)%nat →
  ∃ d' staying st q nc,
    process_court_result i team d = Done d'
    ∧ stay_or_rotate (winners_of team crt) []
        (update_streaks (winners_of team crt) (losers_of team crt) (streaks d))
        (queue d) = Some (staying, st, q)
    ∧ courts d' !! i = Some nc
    ∧ (∀ p, p ∈ queue d' ∨ p ∈ nc → p ∈ queue d ∨ p ∈ crt)
    ∧ (length staying ≠ 1%nat →
       ∀ p, p ∈ queue d ∨ p ∈ crt → p ∈ queue d' ∨ p ∈ nc)
    ∧ (∀ w, staying = [w] →
         nc = [] ∧ w ∈ crt ∧ (w ∉ queue d') ∧ (w ∉ on_court d')
         ∧ ∀ p, p ≠ w → p ∈ queue d ∨ p ∈ crt → p ∈ queue d').
Proof.
  intros Hri Hi H4.
  pose proof (reachable_idle_exclusive cfg d Hri) as Hx.
  pose proof (reachable_sound cfg d (reachable_idle_reachable cfg d Hri)) as Hs.
  pose proof (sound_size cfg d Hs i crt Hi) as Hle.
  assert (length crt = 4%nat) as Hlen by lia.
  pose proof (excl_full d Hx i crt Hi Hlen) as Hnd.
  destruct (process_court_result_done i team d crt Hi H4)
    as (stay & rot & st' & nc & q' & Hloop & Hre & Hdone & Hperm & _).
  pose proof (winners_losers_court team crt) as Hwl.
  assert (stay ++ rot ++ losers_of team crt ≡ₚ crt) as Hall
    by (by rewrite app_assoc, Hperm).
  assert (length stay + length rot = 2)%nat as Hsr.
  { rewrite <- length_app, Hperm. by apply winners_of_four. }
  assert (∀ p, p ∈ crt ↔ p ∈ stay ∨ p ∈ rot ∨ p ∈ losers_of team crt) as Hmem.
  { intros p. rewrite <- (elem_of_Permutation_proper p _ _ Hall).
    rewrite !elem_of_app. tauto. }
  apply (NoDup_Permutation_proper _ _ Hall) in Hnd.
  destruct (reseed_spec _ _ _ _ Hre) as (taken & Hsplit & Hnc & _).
  assert (∀ p, p ∈ queue d ∨ p ∈ rot ↔ p ∈ taken ∨ p ∈ q') as Hpool.
  { intros p. rewrite <- !elem_of_app. by rewrite Hsplit. }
  exists {| players := players d; queue := q' ++ losers_of team crt;
            courts := <[i:=nc]> (courts d); streaks := st';
            history := history d ++
              [ {| court := Z.of_nat i + 1; winners := winners_of team crt;
                   losers := losers_of team crt |} ] |},
    stay, st', (queue d ++ rot), nc.
  simpl. split_and!; try done.
  - apply list_lookup_insert_eq. by apply lookup_lt_Some in Hi.
  - intros p. rewrite elem_of_app, Hmem.
    intros [[Hq|Hl]|Hn]; [| tauto |].
    + destruct (proj2 (Hpool p) (or_intror Hq)); tauto.
    + destruct (Hnc p Hn) as [?|Ht]; [tauto|].
      destruct (proj2 (Hpool p) (or_introl Ht)); tauto.
  - intros Hone p. rewrite elem_of_app, Hmem. unfold reseed in Hre.
    destruct stay as [|s0 [|s1 [|s2 stay]]]; simpl in Hsr; try done; try lia.
    + simplify_eq/=. rewrite ?elem_of_app, ?elem_of_nil. tauto.
    + destruct rot; [|simpl in Hsr; lia]. rewrite app_nil_r in Hre.
      case_decide as Hq3.
      * destruct (queue d) as [|a [|b rest]]; simplify_eq/=.
        rewrite ?elem_of_cons, ?elem_of_nil. tauto.
      * simplify_eq/=. rewrite ?elem_of_cons, ?elem_of_nil. tauto.
  - intros w ->. simpl in Hsr. simpl in Hre. injection Hre as <- <-.
    apply NoDup_cons in Hnd as [Hw _].
    assert (w ∈ crt) as Hwc by (apply Hmem; left; apply list_elem_of_here).
    split_and!; try done.
    + rewrite !elem_of_app. intros [[Hq|Hr]|Hl].
      * by apply (excl_waiting d Hx i crt w).
      * apply Hw, elem_of_app. by left.
      * apply Hw, elem_of_app. by right.
    + intros (j & c & Hj & Hin)%elem_of_on_court. simpl in Hj.
      apply list_lookup_insert_Some in Hj as [(_ & <- & _)|[Hne Hj]].
      * by apply elem_of_nil in Hin.
      * by apply (excl_courts d Hx i j crt c w).
    + intros p Hp. rewrite Hmem, !elem_of_app, list_elem_of_singleton. tauto.
Qed.

Lemma second_game_idle : reachable_idle default_config second_game.
Proof. apply reach_press; [apply three_waiting_reachable|exact I]. Qed.

Lemma result_keeps_everyone_but_a_lone_winner_witness :
  ∃ d' staying st q nc,
    process_court_result 0 "Team 1" second_game = Done d'
    ∧ stay_or_rotate (winners_of "Team 1" ["A"; "E"; "F"; "B"]) []
        (update_streaks (winners_of "Team 1" ["A"; "E"; "F"; "B"])
           (losers_of "Team 1" ["A"; "E"; "F"; "B"]) (streaks second_game))
        (queue second_game) = Some (staying, st, q)
    ∧ courts d' !! 0%nat = Some nc
    ∧ (∀ p, p ∈ queue d' ∨ p ∈ nc →
         p ∈ queue second_game ∨ p ∈ ["A"; "E"; "F"; "B"])
    ∧ (length staying ≠ 1%nat →
       ∀ p, p ∈ queue second_game ∨ p ∈ ["A"; "E"; "F"; "B"] →
            p ∈ queue d' ∨ p ∈ nc)
    ∧ (∀ w, staying = [w] →
         nc = [] ∧ w ∈ ["A"; "E"; "F"; "B"] ∧ (w ∉ queue d')
         ∧ (w ∉ on_court d')
         ∧ ∀ p, p ≠ w →
             p ∈ queue second_game ∨ p ∈ ["A"; "E"; "F"; "B"] →
             p ∈ queue d').
Proof.
  apply (result_keeps_everyone_but_a_lone_winner default_config second_game
           0 "Team 1" ["A"; "E"; "F"; "B"]).
  - apply second_game_idle.
  - by vm_compute.
  - simpl. lia.
Defined.

(** ** The match history display *)

Lemma recent_matches_snoc h r :
  recent_matches (h ++ [r]) = r :: take 9 (recent_matches h).
Proof.
  unfold recent_matches. rewrite length_app. simpl.
  rewrite take_reverse, length_drop, drop_drop.
  destruct (decide (length h < 10)%nat) as [Hlt|Hge].
  - replace (length h + 1 - 10)%nat with 0%nat by lia.
    replace (length h - 10 + (length h - (length h - 10) - 9))%nat
      with 0%nat by lia.
    by rewrite !drop_0, reverse_snoc.
  - rewrite drop_app_le by lia. rewrite reverse_snoc. do 3 f_equal. lia.
Qed.

(** X12. The history display writes the last ten matches, newest first:
    as many lines as there are matches, at most ten, the [k]-th line being
    the [k]-th match counted from the end of the history. *)
Theorem recent_matches_newest_first h :
  length (recent_matches h) = (10 `min` length h)%nat
  ∧ ∀ k, (k < 10 `min` length h)%nat →
      recent_matches h !! k = h !! (length h - 1 - k)%nat.
Proof.
  unfold recent_matches. split.
  - rewrite length_reverse, length_drop. lia.
  - intros k Hk. rewrite reverse_lookup by (rewrite length_drop; lia).
    rewrite lookup_drop, length_drop. f_equal. lia.
Qed.

Lemma recent_matches_newest_first_witness :
  recent_matches (history second_game) !! 0%nat
  = history second_game !! (length (history second_game) - 1 - 0)%nat.
Proof.
  destruct (recent_matches_newest_first (history second_game)) as [_ Hk].
  apply Hk. vm_compute. lia.
Defined.

(** X13. After a saved result the history display starts with the record of
    that result, carrying the court number [court_index + 1], followed by
    what it showed before, cut to nine lines. *)
Theorem saved_result_tops_the_display i team d d' :
  process_court_result i team d = Done d' →
  ∃ crt,
    courts d !! i = Some crt
    ∧ recent_matches (history d')
      = {| court := Z.of_nat i + 1; winners := winners_of team crt;
           losers := losers_of team crt |}
        :: take 9 (recent_matches (history d)).
Proof.
  intros Heq.
  destruct (process_court_result_keeps_history_prefix i team d d' Heq)
    as (crt & Hi & Hh).
  exists crt. split; [done|]. by rewrite Hh, recent_matches_snoc.
Qed.

Lemma saved_result_tops_the_display_witness :
  ∃ crt,
    courts second_game !! 0%nat = Some crt
    ∧ recent_matches
        (history (press default_config second_game (SubmitResult 0 "Team 2")))
      = {| court := Z.of_nat 0 + 1; winners := winners_of "Team 2" crt;
           losers := losers_of "Team 2" crt |}
        :: take 9 (recent_matches (history second_game)).
Proof.
  apply (saved_result_tops_the_display 0 "Team 2" second_game).
  by vm_compute.
Defined.

(** ** The courts display *)

(** The column of one court: the notice for an empty court, the two team
    lines for a court of four or more, [IndexError] from [court[1]],
    [court[2]] or [court[3]] for a court of one, two or three. *)
Lemma show_court_cases crt :
  (crt = [] ∧ show_court crt = Shown (NoGame "No game assigned."))
  ∨ ((4 ≤ length crt)%nat ∧ ∃ t1 t2, show_court crt = Shown (Game t1 t2))
  ∨ ((0 < length crt < 4)%nat ∧ show_court crt = Crashed IndexError).
Proof.
  destruct crt as [|a [|b [|c [|e crt]]]]; simpl; auto.
  - right; right. split; [lia|done].
  - right; right. split; [lia|done].
  - right; right. split; [lia|done].
  - right; left. split; [lia|]. eauto.
Qed.

Lemma show_from_shown i n board cols :
  show_from i n board = Shown cols →
  length cols = n
  ∧ ∀ k col, cols !! k = Some col →
      ∃ crt, board !! (i + k)%nat = Some crt ∧ show_court crt = Shown col.
Proof.
  revert i cols. induction n as [|n IH]; intros i cols Heq.
  - simpl in Heq. injection Heq as <-. split; [done|].
    intros k col Hk. by rewrite lookup_nil in Hk.
  - cbn [show_from] in Heq.
    destruct (board !! i) as [crt|] eqn:Hi; [|done].
    destruct (show_court crt) as [col0|] eqn:Hc; [|done].
    destruct (show_from (S i) n board) as [cols'|] eqn:Hrest; [|done].
    injection Heq as <-. destruct (IH _ _ Hrest) as [Hlen Hcols].
    split; [simpl; lia|]. intros [|k] col Hk; simplify_eq/=.
    + exists crt. by rewrite Nat.add_0_r.
    + destruct (Hcols k col Hk) as (crt' & Hb & Hs).
      exists crt'. split; [|done]. rewrite <- Hb. f_equal. lia.
Qed.

Lemma show_from_crashed i n board e :
  show_from i n board = Crashed e →
  e = IndexError
  ∧ ∃ k, (k < n)%nat
      ∧ (board !! (i + k)%nat = None
         ∨ ∃ crt, board !! (i + k)%nat = Some crt ∧ (0 < length crt < 4)%nat).
Proof.
  revert i. induction n as [|n IH]; intros i Heq; [done|].
  cbn [show_from] in Heq.
  destruct (board !! i) as [crt|] eqn:Hi.
  - destruct (show_court crt) as [col0|e0] eqn:Hc.
    + destruct (show_from (S i) n board) as [cols'|e1] eqn:Hrest; [done|].
      injection Heq as <-. destruct (IH _ Hrest) as (-> & k & Hk & Hwhy).
      split; [done|]. exists (S k). split; [lia|].
      by replace (i + S k)%nat with (S i + k)%nat by lia.
    + injection Heq as <-.
      destruct (show_court_cases crt) as [[_ E]|[(_ & t1 & t2 & E)|[Hl E]]];
        rewrite E in Hc; simplify_eq.
      split; [done|]. exists 0%nat. split; [lia|]. right.
      exists crt. by rewrite Nat.add_0_r.
  - injection Heq as <-. split; [done|]. exists 0%nat. split; [lia|].
    left. by rewrite Nat.add_0_r.
Qed.

Lemma show_from_total i n board :
  (∀ k, (k < n)%nat →
     ∃ crt, board !! (i + k)%nat = Some crt
            ∧ (length crt = 0 ∨ 4 ≤ length crt)%nat) →
  ∃ cols, show_from i n board = Shown cols.
Proof.
  intros Hok. destruct (show_from i n board) as [cols|e] eqn:Heq; [eauto|].
  destruct (show_from_crashed _ _ _ _ Heq) as (_ & k & Hk & Hwhy).
  destruct (Hok k Hk) as (crt & Hb & Hlen).
  destruct Hwhy as [Hnone|(crt' & Hb' & Hpart)]; simplify_eq. lia.
Qed.

(** X14. In a reachable state the courts display raises [IndexError]
    exactly when some court holds one, two or three names; otherwise it
    writes one column per configured court. *)
Theorem courts_display_crashes_iff_partial_court cfg d :
  reachable cfg d →
  (show_courts cfg d = Crashed IndexError
   ↔ ∃ j crt, courts d !! j = Some crt ∧ (0 < length crt < 4)%nat)
  ∧ ((∃ cols, show_courts cfg d = Shown cols ∧ length cols = num_courts cfg)
     ↔ ∀ j crt, courts d !! j = Some crt →
         length crt = 0%nat ∨ length crt = 4%nat).
Proof.
  intros Hr. pose proof (reachable_sound cfg d Hr) as Hs.
  pose proof (sound_board cfg d Hs) as Hb.
  assert ((∀ j crt, courts d !! j = Some crt →
             length crt = 0%nat ∨ length crt = 4%nat) →
          ∃ cols, show_courts cfg d = Shown cols ∧ length cols = num_courts cfg)
    as Hgood.
  { intros Hall.
    destruct (show_from_total 0 (num_courts cfg) (courts d)) as [cols Hc].
    { intros k Hk.
      destruct (lookup_lt_is_Some_2 (courts d) k ltac:(lia)) as [crt Hj].
      exists crt. split; [done|]. destruct (Hall k crt Hj); lia. }
    exists cols. split; [done|]. by apply (show_from_shown _ _ _ _ Hc). }
  assert (show_courts cfg d = Crashed IndexError →
          ∃ j crt, courts d !! j = Some crt ∧ (0 < length crt < 4)%nat)
    as Hbad.
  { intros Hc. destruct (show_from_crashed _ _ _ _ Hc) as (_ & k & Hk & Hwhy).
    destruct Hwhy as [Hnone|(crt & Hj & Hpart)]; [|eauto].
    apply lookup_ge_None in Hnone. lia. }
  assert ((∃ j crt, courts d !! j = Some crt ∧ (0 < length crt < 4)%nat) →
          ¬ ∃ cols, show_courts cfg d = Shown cols) as Hexcl.
  { intros (j & crt & Hj & Hpart) [cols Hc].
    destruct (show_from_shown _ _ _ _ Hc) as [Hlen Hcols].
    destruct (lookup_lt_is_Some_2 cols j) as [col Hcol].
    { apply lookup_lt_Some in Hj. lia. }
    destruct (Hcols j col Hcol) as (crt' & Hj' & Hs').
    simpl in Hj'. simplify_eq.
    destruct (show_court_cases crt) as [[-> _]|[[H4 _]|[_ E]]];
      [simpl in Hpart; lia|lia|]. by rewrite E in Hs'. }
  split; split.
  - apply Hbad.
  - intros Hpart. destruct (show_courts cfg d) as [cols|e] eqn:Hc.
    + exfalso. apply (Hexcl Hpart). eauto.
    + by destruct (show_from_crashed _ _ _ _ Hc) as (-> & _).
  - intros (cols & Hc & _) j crt Hj.
    pose proof (sound_size cfg d Hs j crt Hj) as Hle.
    destruct (decide (0 < length crt < 4)%nat) as [Hpart|Hok]; [|lia].
    exfalso. apply (Hexcl (ex_intro _ j (ex_intro _ crt (conj Hj Hpart)))).
    eauto.
  - apply Hgood.
Qed.

Lemma courts_display_crashes_iff_partial_court_witness :
  show_courts default_config
    (press default_config four_on_court (SubmitResult 0 "Team 1"))
  = Crashed IndexError.
Proof.
  apply (courts_display_crashes_iff_partial_court default_config
           (press default_config four_on_court (SubmitResult 0 "Team 1"))).
  - apply reach_press; [|exact I].
    apply reachable_idle_reachable, four_on_court_reachable.
  - exists 0%nat, ["A"; "A"; "B"]. split; [by vm_compute|simpl; lia].
Defined.

(** X15. In a reachable state, a court for which the display shows the two
    team lines (and so offers the result form) holds exactly four players;
    the Team 1 line names the first two and the Team 2 line the last two;
    whichever team is submitted, [process_court_result] saves (it neither
    warns nor raises), and the record it appends names as winners exactly
    the two players shown on the line of the submitted team. *)
Theorem offered_form_matches_saved_result cfg d i crt t1 t2 :
  reachable cfg d → courts d !! i = Some crt →
  show_court crt = Shown (Game t1 t2) →
  ∃ p0 p1 p2 p3,
    crt = [p0; p1; p2; p3]
    ∧ t1 = "**Team 1:** " +:+ p0 +:+ " & " +:+ p1
    ∧ t2 = "**Team 2:** " +:+ p2 +:+ " & " +:+ p3
    ∧ ∀ team, ∃ d',
        process_court_result i team d = Done d'
        ∧ last (history d')
          = Some {| court := Z.of_nat i + 1;
                    winners := if team1 team then [p0; p1] else [p2; p3];
                    losers := if team1 team then [p2; p3] else [p0; p1] |}.
Proof.
  intros Hr Hi Hshow.
  pose proof (sound_size cfg d (reachable_sound cfg d Hr) i crt Hi) as Hle.
  destruct crt as [|p0 [|p1 [|p2 [|p3 [|x crt]]]]]; simplify_eq/=; [|lia].
  exists p0, p1, p2, p3. split_and!; try done.
  intros team.
  destruct (process_court_result_done i team d [p0; p1; p2; p3] Hi)
    as (stay & rot & st' & nc & q' & _ & _ & Hdone & _); [simpl; lia|].
  eexists. split; [exact Hdone|]. simpl. rewrite last_snoc.
  unfold winners_of, losers_of. by destruct (team1 team).
Qed.

Lemma offered_form_matches_saved_result_witness :
  ∃ p0 p1 p2 p3,
    ["A"; "B"; "C"; "D"] = [p0; p1; p2; p3]
    ∧ "**Team 1:** A & B" = "**Team 1:** " +:+ p0 +:+ " & " +:+ p1
    ∧ "**Team 2:** C & D" = "**Team 2:** " +:+ p2 +:+ " & " +:+ p3
    ∧ ∀ team, ∃ d',
        process_court_result 0 team three_waiting = Done d'
        ∧ last (history d')
          = Some {| court := Z.of_nat 0 + 1;
                    winners := if team1 team then [p0; p1] else [p2; p3];
                    losers := if team1 team then [p2; p3] else [p0; p1] |}.
Proof.
  apply (offered_form_matches_saved_result default_config three_waiting 0
           ["A"; "B"; "C"; "D"]).
  - apply reachable_idle_reachable, three_waiting_reachable.
  - by vm_compute.
  - reflexivity.
Defined.

Lemma show_courts_partial_court cfg d j crt :
  sound cfg d → courts d !! j = Some crt → (0 < length crt < 4)%nat →
  show_courts cfg d = Crashed IndexError.
Proof.
  intros Hs Hj Hpart. pose proof (sound_board cfg d Hs) as Hb.
  destruct (show_courts cfg d) as [cols|e] eqn:Hc.
  - exfalso. destruct (show_from_shown _ _ _ _ Hc) as [Hlen Hcols].
    destruct (lookup_lt_is_Some_2 cols j) as [col Hcol].
    { apply lookup_lt_Some in Hj. lia. }
    destruct (Hcols j col Hcol) as (crt' & Hj' & Hs').
    simpl in Hj'. simplify_eq.
    destruct (show_court_cases crt) as [[-> _]|[[H4 _]|[_ E]]];
      [simpl in Hpart; lia|lia|]. by rewrite E in Hs'.
  - by destruct (show_from_crashed _ _ _ _ Hc) as (-> & _).
Qed.

(** X16. In a reachable state, a result that is saved with both winners
    staying while fewer than three players wait leaves data that the courts
    display cannot show: the next script run raises [IndexError] when it
    reaches that court, and so does every later one until the court is
    overwritten. *)
Theorem short_reseed_breaks_the_display cfg d i team crt s0 s1 st q :
  reachable cfg d → courts d !! i = Some crt → (4 ≤ length crt)%nat →
  stay_or_rotate (winners_of team crt) []
    (update_streaks (winners_of team crt) (losers_of team crt) (streaks d))
    (queue d) = Some ([s0; s1], st, q) →
  (length q < 3)%nat →
  courts (press cfg d (SubmitResult i team)) !! i = Some [s0; s0; s1]
  ∧ show_courts cfg (press cfg d (SubmitResult i team)) = Crashed IndexError.
Proof.
  intros Hr Hi H4 Hloop Hq.
  assert (courts (press cfg d (SubmitResult i team)) !! i = Some [s0; s0; s1])
    as Hcourt.
  { unfold press. simpl. unfold process_court_result. rewrite Hi.
    case_decide; [lia|]. rewrite Hloop, reseed_short_queue by done. simpl.
    apply list_lookup_insert_eq. by apply lookup_lt_Some in Hi. }
  split; [done|].
  apply (show_courts_partial_court cfg _ i [s0; s0; s1]); [|done|simpl; lia].
  apply reachable_sound. by apply reach_press.
Qed.

Lemma short_reseed_breaks_the_display_witness :
  courts (press default_config four_on_court (SubmitResult 0 "Team 1"))
    !! 0%nat = Some ["A"; "A"; "B"]
  ∧ show_courts default_config
      (press default_config four_on_court (SubmitResult 0 "Team 1"))
    = Crashed IndexError.
Proof.
  apply (short_reseed_breaks_the_display default_config four_on_court 0
           "Team 1" ["A"; "B"; "C"; "D"] "A" "B"
           (update_streaks ["A"; "B"] ["C"; "D"] (streaks four_on_court)) []).
  - apply reachable_idle_reachable, four_on_court_reachable.
  - by vm_compute.
  - simpl. lia.
  - by vm_compute.
  - simpl. lia.
Defined.

(** ** Sessions with configuration changes *)

Lemma sound_save_config cfg d m n :
  sound cfg d → sound (save_config m n d).1 (save_config m n d).2.
Proof.
  intros [Hb Hs Hq Hc Hst]. split; simpl; try done.
  - apply length_replicate.
  - intros j c Hj. apply lookup_replicate in Hj as [-> _]. simpl. lia.
  - intros j c p Hj Hp. apply lookup_replicate in Hj as [-> _].
    by apply elem_of_nil in Hp.
Qed.

Lemma session_sound cfg d : session cfg d → sound cfg d.
Proof.
  induction 1 as [cfg|cfg d op _ IH Hop|cfg d m n _ IH Hmn].
  - apply sound_default.
  - by apply sound_press.
  - by apply (sound_save_config cfg).
Qed.

Lemma reachable_session cfg d : reachable cfg d → session cfg d.
Proof.
  induction 1 as [|d op _ IH Hop]; [apply session_start|].
  by apply session_press.
Qed.

(** X17. However button presses and "Save Config" are interleaved, the
    board always has exactly [num_courts] slots of at most four names,
    everybody waiting or on a court is on the roster, every streak is 0, 1
    or 2, [assign_all_courts] saves, and [process_court_result] raises only
    for a court index outside the board. *)
Theorem session_keeps_board_and_config_in_step cfg d :
  session cfg d →
  length (courts d) = num_courts cfg
  ∧ (∀ j crt, courts d !! j = Some crt → (length crt ≤ 4)%nat)
  ∧ (∀ p, p ∈ queue d ∨ p ∈ on_court d → p ∈ players d)
  ∧ (∀ p v, streaks d !! p = Some v → 0 ≤ v < 3)
  ∧ (∃ d', assign_all_courts cfg d = Done d')
  ∧ (∀ i team e, process_court_result i team d = Raised e →
       (num_courts cfg ≤ i)%nat ∧ e = IndexError).
Proof.
  intros Hse. pose proof (session_sound cfg d Hse) as Hs.
  pose proof (sound_board cfg d Hs) as Hb. split_and!.
  - done.
  - apply (sound_size cfg d Hs).
  - intros p [Hq|(j & c & Hj & Hp)%elem_of_on_court].
    + by apply (sound_queue cfg d Hs).
    + by apply (sound_courts cfg d Hs j c).
  - apply (sound_streaks cfg d Hs).
  - unfold assign_all_courts.
    destruct (assign_from_spec (num_courts cfg) 0 d)
      as (m & d' & _ & _ & _ & Heq & _); [lia|]. eauto.
  - intros i team e Heq.
    destruct (courts d !! i) as [crt|] eqn:Hi.
    + destruct (decide (length crt < 4)%nat) as [Hshort|Hfull].
      * by rewrite (process_court_result_short i team d crt) in Heq.
      * destruct (process_court_result_done i team d crt Hi ltac:(lia))
          as (stay & rot & st' & nc & q' & _ & _ & Hdone & _).
        by rewrite Hdone in Heq.
    + rewrite process_court_result_range in Heq by done.
      injection Heq as <-. apply lookup_ge_None in Hi. split; [lia|done].
Qed.

Lemma session_keeps_board_and_config_in_step_witness :
  length (courts (save_config 12 5 three_waiting).2) = 5%nat
  ∧ ∃ d', assign_all_courts (save_config 12 5 three_waiting).1
            (save_config 12 5 three_waiting).2 = Done d'.
Proof.
  destruct (session_keeps_board_and_config_in_step
              (save_config 12 5 three_waiting).1
              (save_config 12 5 three_waiting).2)
    as (Hb & _ & _ & _ & Ha & _).
  - apply (session_config default_config).
    + apply reachable_session, reachable_idle_reachable,
        three_waiting_reachable.
    + unfold slider_ok. lia.
  - split; [exact Hb|exact Ha].
Defined.

(** ** No double booking *)

(** X18. As long as "Initialize Queue" is only pressed while all courts are
    empty, nobody is listed twice in the queue, a court of four holds four
    different players, and nobody stands on two courts. *)
Theorem no_double_booking_when_idle cfg d :
  reachable_idle cfg d →
  NoDup (queue d)
  ∧ (∀ j crt, courts d !! j = Some crt → length crt = 4%nat → NoDup crt)
  ∧ (∀ j k cj ck p, j ≠ k → courts d !! j = Some cj →
       courts d !! k = Some ck → p ∈ cj → p ∉ ck).
Proof.
  intros Hri. destruct (reachable_idle_exclusive cfg d Hri)
    as [_ Hq Hfull _ Hcross].
  split_and!; [exact Hq|exact Hfull|exact Hcross].
Qed.

Lemma no_double_booking_when_idle_witness :
  NoDup (queue second_game)
  ∧ (∀ j crt, courts second_game !! j = Some crt → length crt = 4%nat →
       NoDup crt)
  ∧ (∀ j k cj ck p, j ≠ k → courts second_game !! j = Some cj →
       courts second_game !! k = Some ck → p ∈ cj → p ∉ ck).
Proof.
  apply (no_double_booking_when_idle default_config second_game).
  apply second_game_idle.
Defined.

(** ** The roster across configuration changes *)

Lemma roster_distinct_press cfg d op :
  NoDup (players d) ∧ "" ∉ players d →
  NoDup (players (press cfg d op)) ∧ "" ∉ players (press cfg d op).
Proof.
  intros Hd. apply (press_preserves
    (λ d, NoDup (players d) ∧ "" ∉ players d)); [done|].
  intros d' He. destruct Hd as (Hnd & Hne).
  destruct (exec_roster cfg op d d' He)
    as [->|[(name & _ & Hname & Hnew & _ & -> & _)|[_ ->]]].
  - done.
  - split.
    + apply NoDup_app. split_and!; [done| |apply NoDup_singleton].
      by intros p Hp ->%list_elem_of_singleton.
    + intros [?|Heq%list_elem_of_singleton]%elem_of_app; [done|].
      by apply Hname.
  - split; [apply NoDup_nil_2|by intros ?%elem_of_nil].
Qed.

Lemma session_roster_distinct cfg d :
  session cfg d → NoDup (players d) ∧ "" ∉ players d.
Proof.
  induction 1 as [cfg|cfg d op _ IH Hop|cfg d m n _ IH Hmn].
  - split; [apply NoDup_nil_2|by intros ?%elem_of_nil].
  - by apply roster_distinct_press.
  - done.
Qed.

(** "Save Config" never trims the roster: nine players added under a limit
    of 20 are still nine after the limit is lowered to 8. *)
Lemma session_roster_can_exceed_capacity :
  session (save_config 8 3 nine_waiting).1 (save_config 8 3 nine_waiting).2
  ∧ length (players (save_config 8 3 nine_waiting).2) = 9%nat
  ∧ max_players (save_config 8 3 nine_waiting).1 = 8%nat.
Proof.
  split_and!; [|by vm_compute..].
  apply (session_config (mkConfig 20 2)); [|unfold slider_ok; lia].
  apply reachable_session, reach_run; [constructor|check_presses].
Qed.

(** X2. However button presses and "Save Config" are interleaved, the
    roster never lists a name twice and never holds the empty name, and no
    press takes the roster above [max_players]: after a press the roster is
    no longer than the larger of its length before and the current
    [max_players].  As long as the configuration is never changed the
    roster holds at most [max_players] names; "Save Config" may lower the
    limit below the size of the roster, which it does not trim. *)
Theorem roster_distinct_and_presses_respect_capacity cfg d :
  session cfg d →
  NoDup (players d)
  ∧ ("" ∉ players d)
  ∧ (∀ op, (length (players (press cfg d op))
            ≤ length (players d) `max` max_players cfg)%nat)
  ∧ (∀ m n, players (save_config m n d).2 = players d)
  ∧ (reachable cfg d → (length (players d) ≤ max_players cfg)%nat).
Proof.
  intros Hse. destruct (session_roster_distinct cfg d Hse) as [Hnd Hne].
  split_and!; try done.
  - intros op. unfold press.
    destruct (exec cfg op d) as [d'| | |] eqn:He; simpl; try lia.
    destruct (exec_roster cfg op d d' He)
      as [->|[(name & _ & _ & _ & Hroom & -> & _)|[_ ->]]].
    + lia.
    + rewrite length_app. simpl. lia.
    + simpl. lia.
  - intros Hr. by apply (reachable_roster_within_capacity cfg d).
Qed.

Lemma roster_distinct_and_presses_respect_capacity_witness :
  NoDup (players (save_config 8 3 nine_waiting).2)
  ∧ ("" ∉ players (save_config 8 3 nine_waiting).2)
  ∧ (∀ op, (length (players (press (save_config 8 3 nine_waiting).1
                               (save_config 8 3 nine_waiting).2 op))
            ≤ length (players (save_config 8 3 nine_waiting).2)
              `max` max_players (save_config 8 3 nine_waiting).1)%nat).
Proof.
  destruct (roster_distinct_and_presses_respect_capacity
              (save_config 8 3 nine_waiting).1
              (save_config 8 3 nine_waiting).2)
    as (Hnd & Hne & Hcap & _).
  - apply session_roster_can_exceed_capacity.
  - split_and!; [exact Hnd|exact Hne|exact Hcap].
Defined.
